(** * spark_text_lab: word, bigram and per-file counting

    A shallow embedding of [spark_text_lab.py].  Python [str] values are
    Rocq [string]s (one [ascii] per code point, so the texts covered are
    those of code points below 256), Python [int]s are [Z], an RDD is the
    list of its elements in [collect()] order, a [dict] or [Counter] is an
    association list in insertion order, and a call that can raise
    returns a [result]. *)

From Stdlib Require Import List String Ascii ZArith NArith QArith Bool Lia.
From Stdlib Require Import Permutation Sorted.
Import ListNotations.

Local Open Scope string_scope.
Local Open Scope Z_scope.

(** ** Characters *)

Module Char.

Definition code (c : ascii) : N := N_of_ascii c.

Definition between (lo hi : N) (c : ascii) : bool :=
  ((lo <=? code c) && (code c <=? hi))%N.

Definition is_digit (c : ascii) : bool := between 48 57 c.
Definition is_upper (c : ascii) : bool := between 65 90 c.
Definition is_lower (c : ascii) : bool := between 97 122 c.
Definition is_apostrophe (c : ascii) : bool := (code c =? 39)%N.

(** The character class [[0-9a-zA-Z']] of [WORD_RE]. *)
Definition in_class (c : ascii) : bool :=
  is_digit c || is_lower c || is_upper c || is_apostrophe c.

(** Code points 128..255 that [re] counts as alphanumeric. *)
Definition is_latin1_alnum (c : ascii) : bool :=
  ((code c =? 170) || (code c =? 178) || (code c =? 179) || (code c =? 181)
   || (code c =? 185) || (code c =? 186) || between 188 190 c
   || between 192 214 c || between 216 246 c || between 248 255 c)%N.

(** [\w] of a [str] pattern: alphanumeric or underscore. *)
Definition is_word_char (c : ascii) : bool :=
  is_digit c || is_lower c || is_upper c || (code c =? 95)%N
  || is_latin1_alnum c.

(** [str.lower()] on one character. *)
Definition lower (c : ascii) : ascii :=
  if is_upper c || ((between 192 222 c) && negb (code c =? 215)%N)
  then ascii_of_N (code c + 32)
  else c.

End Char.

(** ** Regular expression [\b[0-9a-zA-Z']+\b] *)

Module WordRe.
Import Char.

(** [\b] between the character before the position and the one after it;
    outside the text counts as a non-word character. *)
Definition is_word (o : option ascii) : bool :=
  match o with Some c => is_word_char c | None => false end.

Definition boundary (prev next : option ascii) : bool :=
  xorb (is_word prev) (is_word next).

Definition head (s : string) : option ascii :=
  match s with String c _ => Some c | EmptyString => None end.

(** The greedy [+] after its first character [prev]: take one more
    character of the class when that leads to a match, otherwise stop
    here if [\b] holds.  Returns the rest of the match and the text that
    follows it. *)
Fixpoint match_run (prev : ascii) (s : string) : option (string * string) :=
  let stop := if boundary (Some prev) (head s)
              then Some (EmptyString, s) else None in
  match s with
  | String c s' =>
      if in_class c then
        match match_run c s' with
        | Some (m, r) => Some (String c m, r)
        | None => stop
        end
      else stop
  | EmptyString => stop
  end.

(** A match that starts at the head of [s], [prev] being the character
    before it.  Returns the match, its last character and the rest. *)
Definition match_at (prev : option ascii) (s : string)
  : option (string * string) :=
  match s with
  | String c s' =>
      if boundary prev (Some c) && in_class c then
        match match_run c s' with
        | Some (m, r) => Some (String c m, r)
        | None => None
        end
      else None
  | EmptyString => None
  end.

Fixpoint last_char (d : ascii) (s : string) : ascii :=
  match s with
  | String c s' => last_char c s'
  | EmptyString => d
  end.

(** [findall]: leftmost matches, the search resuming where the previous
    match ended.  Each step consumes a character, so [String.length s]
    steps are enough. *)
Fixpoint findall_fuel (fuel : nat) (prev : option ascii) (s : string)
  : list string :=
  match fuel with
  | O => []
  | S fuel' =>
      match s with
      | EmptyString => []
      | String c s' =>
          match match_at prev s with
          | Some (m, r) => m :: findall_fuel fuel' (Some (last_char c m)) r
          | None => findall_fuel fuel' (Some c) s'
          end
      end
  end.

Definition findall (s : string) : list string :=
  findall_fuel (String.length s) None s.

End WordRe.

(** [s.lower()], on the code points below 256 that a [string] holds. *)
Fixpoint str_lower (s : string) : string :=
  match s with
  | String c s' => String (Char.lower c) (str_lower s')
  | EmptyString => EmptyString
  end.

(** [tokenize(text)] *)
Definition tokenize (text : string) : list string :=
  map str_lower (WordRe.findall text).


(** ** Python values *)

Inductive exn : Set := TypeError | ZeroDivisionError | ValueError.

Inductive result (A : Type) : Type :=
| Ok (a : A)
| Raise (e : exn).
Arguments Ok {A} a.
Arguments Raise {A} e.

Definition is_ok {A : Type} (r : result A) : bool :=
  match r with Ok _ => true | Raise _ => false end.

(** [len(s)] *)
Definition len (s : string) : Z := Z.of_nat (String.length s).

(** [a / b] on two values that are an [int] or [None].  The float that
    Python returns is the rounding of the quotient given here. *)
Definition truediv (a b : option Z) : result Q :=
  match a, b with
  | Some x, Some y =>
      if y =? 0 then Raise ZeroDivisionError
      else Ok (inject_Z x / inject_Z y)%Q
  | _, _ => Raise TypeError
  end.

(** [s.split(sep)] for a one-character separator. *)
Fixpoint split (sep : ascii) (s : string) : list string :=
  match s with
  | EmptyString => [EmptyString]
  | String c s' =>
      if Ascii.eqb c sep then EmptyString :: split sep s'
      else match split sep s' with
           | piece :: pieces => String c piece :: pieces
           | [] => [String c EmptyString]
           end
  end.

(** ** Dictionaries and counters *)

Module Dict.

Definition t := list (string * Z).

Fixpoint get (d : t) (k : string) (default : Z) : Z :=
  match d with
  | [] => default
  | (k', v) :: d' => if String.eqb k k' then v else get d' k default
  end.

(** [d[k] = v]: an existing key keeps its place, a new one goes last. *)
Fixpoint set (d : t) (k : string) (v : Z) : t :=
  match d with
  | [] => [(k, v)]
  | (k', v') :: d' =>
      if String.eqb k k' then (k', v) :: d' else (k', v') :: set d' k v
  end.

Definition keys (d : t) : list string := map fst d.

End Dict.

(** [Counter(iterable)]: [self[elem] = self.get(elem, 0) + 1] per element. *)
Definition Counter (elems : list string) : Dict.t :=
  fold_left (fun d w => Dict.set d w (Dict.get d w 0 + 1)) elems [].

(** ** RDD operations

    An RDD is the list of its elements as [collect()] returns them. *)

Module RDD.

Section Keyed.
Context {V : Type}.

Fixpoint merge_value (f : V -> V -> V) (k : string) (v : V)
         (acc : list (string * V)) : list (string * V) :=
  match acc with
  | [] => [(k, v)]
  | (k', v') :: acc' =>
      if String.eqb k k' then (k', f v' v) :: acc'
      else (k', v') :: merge_value f k v acc'
  end.

(** [rdd.reduceByKey(f)], keys in the order of their first occurrence.
    Spark leaves the order of the result to its partitioner: any
    [Permutation] of this list can be what [collect()] returns. *)
Definition reduceByKey (f : V -> V -> V) (rdd : list (string * V))
  : list (string * V) :=
  fold_left (fun acc kv => merge_value f (fst kv) (snd kv) acc) rdd [].
End Keyed.

(** [rdd.sum()] *)
Definition sum (rdd : list Z) : Z := fold_left Z.add rdd 0.

Section Ordered.
Context {A : Type}.
Variable key : A -> Z.

Fixpoint insert_by (x : A) (l : list A) : list A :=
  match l with
  | [] => [x]
  | y :: l' => if key x <=? key y then x :: l else y :: insert_by x l'
  end.

(** [sorted(l, key=key)], stable. *)
Definition sorted (l : list A) : list A := fold_right insert_by [] l.

(** [rdd.takeOrdered(num, key)]: the [num] smallest by [key], equal
    keys in the order of the RDD. *)
Definition takeOrdered (num : nat) (l : list A) : list A :=
  firstn num (sorted l).
End Ordered.

End RDD.

(** ** DataFrames *)

Module Row.
Record t : Type := mk
  { word : string; count : Z; length : Z; freq : option Q }.
End Row.

Module Doc.
Record t : Type := mk { word : string; count : Z; length : Z }.
End Doc.

(** [df.groupBy().sum(c).collect()[0][0]]: SQL [sum], [NULL] over no
    rows.  The sum here is exact; Spark's is the same as long as it fits
    the 64 bits of a long, and wraps beyond. *)
Definition sql_sum (column : list Z) : option Z :=
  match column with
  | [] => None
  | _ :: _ => Some (RDD.sum column)
  end.

(** [col(c) / total] in a column expression: [NULL] on a zero divisor.
    The quotient here is exact; Spark stores a double close to it. *)
Definition sql_div (a b : Z) : option Q :=
  if b =? 0 then None else Some (inject_Z a / inject_Z b)%Q.

(** ** The lab *)

Definition STOPWORDS : list string := ["is"; "a"; "the"; "to"; "with"; "and"].

Definition in_stopwords (w : string) : bool :=
  existsb (String.eqb w) STOPWORDS.

(** [lambda x: -x[1]] *)
Definition neg_count (x : string * Z) : Z := - snd x.

(** [rdd_word_counts(spark, path)], [lines] being [sc.textFile(path)]. *)
Definition rdd_word_counts (lines : list string) : list (string * Z) :=
  let words := flat_map (fun l => tokenize l) lines in
  RDD.reduceByKey Z.add (map (fun w => (w, 1)) words).

Definition stopword_filter (counts_rdd : list (string * Z))
  : list (string * Z) :=
  filter (fun x => negb (in_stopwords (fst x))) counts_rdd.

Definition compare_stopwords (counts_rdd : list (string * Z))
  : Z * list (string * Z) * list (string * Z) * list (string * Z) :=
  let total := RDD.sum (map (fun x => snd x) counts_rdd) in
  let top_before := RDD.takeOrdered neg_count 10 counts_rdd in
  let filtered := stopword_filter counts_rdd in
  let top_after := RDD.takeOrdered neg_count 10 filtered in
  (total, top_before, top_after, filtered).

(** [rlike(".")]: some character of the word is not a line terminator. *)
Fixpoint rlike_dot (w : string) : bool :=
  match w with
  | EmptyString => false
  | String c w' =>
      negb ((Char.code c =? 10) || (Char.code c =? 13)
            || (Char.code c =? 133))%N
      || rlike_dot w'
  end.

(** The first [length] column of [df_from_counts]. *)
Definition placeholder_length (w : string) : Z :=
  (if rlike_dot w then 1 else 0) * 0 + 1.

(** [df_from_counts(spark, counts_rdd)]; [toDF] cannot infer a schema
    from an empty RDD.  Counts are taken to fit a long, as [toDF]
    requires. *)
Definition df_from_counts (counts_rdd : list (string * Z))
  : result (list Row.t * option Z) :=
  match counts_rdd with
  | [] => Raise ValueError
  | _ :: _ =>
      let df0 := map (fun x => (fst x, snd x, placeholder_length (fst x)))
                     counts_rdd in
      let df1 := map (fun r => match r with
                               | (w, c, _) => (w, c, len w)
                               end) df0 in
      let total := sql_sum (map (fun r => snd (fst r)) df1) in
      let freq c := match total with
                    | Some tot => sql_div c tot
                    | None => None
                    end in
      Ok (map (fun r => match r with
                        | (w, c, l) => Row.mk w c l (freq c)
                        end) df1, total)
  end.

Definition weighted_avg_word_length (df : list Row.t) (total : option Z)
  : result Q :=
  let s := RDD.sum (map (fun r => Row.length r * Row.count r) df) in
  truediv (Some s) total.

Definition filter_count_ge (df : list Row.t) (n : Z)
  : result (list Row.t * Q) :=
  let total := sql_sum (map Row.count df) in
  let filtered := filter (fun r => n <=? Row.count r) df in
  match truediv (sql_sum (map Row.count filtered)) total with
  | Ok share => Ok (filtered, share)
  | Raise e => Raise e
  end.

(** [mongo_store_counts]: the collection is dropped, then holds [docs]. *)
Definition mongo_store_counts (counts_rdd : list (string * Z))
           (coll : list Doc.t) : list Doc.t :=
  let dropped : list Doc.t := [] in
  let docs := map (fun wc => Doc.mk (fst wc) (snd wc) (len (fst wc)))
                  counts_rdd in
  match docs with
  | [] => dropped
  | _ :: _ => dropped ++ docs
  end.

(** [[(ws[i]+" "+ws[i+1], 1) for i in range(len(ws)-1)]] *)
Definition bigrams_of (ws : list string) : list (string * Z) :=
  map (fun i => (nth i ws "" ++ " " ++ nth (i + 1) ws "", 1))
      (seq 0 (List.length ws - 1)).

Definition is_nonempty {A : Type} (l : list A) : bool :=
  match l with [] => false | _ :: _ => true end.

(** The pairs [top_bigrams] emits before it reduces them. *)
Definition bigram_occurrences (lines : list string) : list (string * Z) :=
  let tokens := filter is_nonempty (map (fun l => tokenize l) lines) in
  flat_map bigrams_of tokens.

Definition bigram_counts (lines : list string) : list (string * Z) :=
  RDD.reduceByKey Z.add (bigram_occurrences lines).

(** [top_bigrams(spark, path, top_k)].  Bigrams of one count come in the
    order of [bigram_counts], which with Spark is the engine's. *)
Definition top_bigrams (lines : list string) (top_k : nat)
  : list (string * Z) :=
  RDD.takeOrdered neg_count top_k (bigram_counts lines).

(** [Counter.most_common(n)]: the [n] largest counts, equal counts in
    insertion order. *)
Definition most_common (n : nat) (d : Dict.t) : list (string * Z) :=
  RDD.takeOrdered neg_count n d.

(** [path.split('/')[-1]] *)
Definition basename (path : string) : string :=
  last (split "/" path) EmptyString.

(** [per_file_and_global_counts(spark, folder)], [files] being
    [sc.wholeTextFiles(folder)]: pairs of a path and a content.  The
    twenty most common tokens of each file are computed and dropped. *)
Definition per_file_and_global_counts (files : list (string * string))
  : list (string * Dict.t) * list (string * Z) :=
  let per_file :=
    map (fun kv => (basename (fst kv), snd kv))
        (map (fun kv => (fst kv, Counter (tokenize (snd kv)))) files) in
  let global_counts :=
    RDD.reduceByKey Z.add
      (map (fun w => (w, 1)) (flat_map (fun kv => tokenize (snd kv)) files))
  in
  let top_per_file :=
    map (fun kv => (fst kv, most_common 20 (Counter (tokenize (snd kv)))))
        files in
  (per_file, global_counts).

(** ** The specification's reading of the tokenizer

    For comparison with [tokenize]: the maximal runs of characters of
    the class, in order, every other character being a separator. *)









Fixpoint string_forallb (p : ascii -> bool) (s : string) : bool :=
  match s with
  | String c s' => p c && string_forallb p s'
  | EmptyString => true
  end.


(** ** Auxiliary definitions *)

(** The total of the values that [l] pairs with the key [t]. *)
Fixpoint tally (t : string) (l : list (string * Z)) : Z :=
  match l with
  | [] => 0
  | (k, v) :: l' => (if String.eqb t k then v else 0) + tally t l'
  end.

Definition Zsum (l : list Z) : Z := fold_right Z.add 0 l.



(** [findall] resumed in the middle of a text, after the character
    [prev]. *)
Definition scan (prev : option ascii) (s : string) : list string :=
  WordRe.findall_fuel (String.length s) prev s.




Fixpoint no_slash (s : string) : bool :=
  match s with
  | String c s' => negb (Ascii.eqb c "/") && no_slash s'
  | EmptyString => true
  end.

(** Two adjacent tokens as [top_bigrams] emits them. *)
Definition joined (p : string * string) : string * Z :=
  (fst p ++ " " ++ snd p, 1).

(** The rows that [filter_count_ge] keeps. *)
Definition retained (df : list Row.t) (n : Z) : list Row.t :=
  filter (fun r => n <=? Row.count r) df.

Fixpoint insert_all {A : Type} (x : A) (l : list A) : list (list A) :=
  match l with
  | [] => [[x]]
  | y :: l' => (x :: l) :: map (cons y) (insert_all x l')
  end.

(** Every order in which the engine can list the elements of [l]. *)
Fixpoint perms {A : Type} (l : list A) : list (list A) :=
  match l with
  | [] => [[]]
  | x :: l' => flat_map (insert_all x) (perms l')
  end.

Definition corpus : string := "the cat sat. the dog sat.".

(** ** Further definitions *)

(** The characters a token is made of: the class after [lower()]. *)
Definition lower_class (c : ascii) : bool :=
  Char.is_digit c || Char.is_lower c || Char.is_apostrophe c.

Definition total_length (ws : list string) : nat :=
  fold_right (fun w n => (String.length w + n)%nat) 0%nat ws.

(** A character that ends a word and is no part of one: outside [\w]
    and outside the class. *)
Definition is_separator (c : ascii) : bool :=
  negb (Char.is_word_char c) && negb (Char.in_class c).

Definition newline : ascii := ascii_of_N 10.

(** [" \n".join(lines)]-style joining: ["\n".join(lines)]. *)
Definition join_lines (lines : list string) : string :=
  String.concat (String newline EmptyString) lines.

(** [top] lists the [n] entries of [l] of smallest key (all of them when
    [l] has fewer), by increasing key: no entry left out has a smaller
    key than one listed. *)
Definition is_top {A : Type} (key : A -> Z) (n : nat) (l top : list A)
  : Prop :=
  List.length top = Nat.min n (List.length l)
  /\ StronglySorted (fun a b => key a <= key b) top
  /\ exists rest,
      Permutation (top ++ rest) l
      /\ forall x y, In x top -> In y rest -> key x <= key y.

(** [lambda r: -r['length']], the key of [orderBy(col('length').desc())]. *)
Definition neg_length (r : Row.t) : Z := - Row.length r.

(** [ten_longest(df)]: ordered by decreasing length, cut at ten rows,
    three columns kept.  Rows of one length are listed here in the order
    of [df]; Spark may list them in another, which is the order this
    function gives on [df] rearranged. *)
Definition ten_longest (df : list Row.t) : list (string * Z * Z) :=
  map (fun r => (Row.word r, Row.count r, Row.length r))
      (firstn 10 (RDD.sorted neg_length df)).

(** ** The document store

    A collection is the list of its documents; the [_id] that the store
    adds to a document and the index on [count] are left out. *)

Module GDoc.
Record t : Type := mk { word : string; count : Z }.
End GDoc.

Module FDoc.
Record t : Type := mk { file : string; word : string; count : Z }.
End FDoc.

(** The database [spark_text_lab] and its three collections. *)
Module Db.
Record t : Type := mk
  { words : list Doc.t;
    global_wordcount : list GDoc.t;
    per_file_wordcount : list FDoc.t }.
End Db.

Definition neg_doc_count (d : Doc.t) : Z := - Doc.count d.

(** [query_mongo_by_length]: [find({'length': {'$gte': min_length}})]
    then [sort('count', -1)], on the collection [words]. *)
Definition query_mongo_by_length (coll : list Doc.t) (min_length : Z)
  : list Doc.t :=
  RDD.sorted neg_doc_count
             (filter (fun d => min_length <=? Doc.length d) coll).

(** [store_global_and_perfile_mongo]: both collections are dropped, then
    filled. *)
Definition store_global_and_perfile_mongo
           (per_file : list (string * Dict.t))
           (global_counts_rdd : list (string * Z)) (db : Db.t)
  : Db.t * bool :=
  let docs := map (fun wc => GDoc.mk (fst wc) (snd wc)) global_counts_rdd in
  let per_docs :=
    flat_map (fun fd => map (fun wc => FDoc.mk (fst fd) (fst wc) (snd wc))
                            (snd fd))
             per_file in
  (Db.mk (Db.words db) docs per_docs, true).

(** ** The run of [main] *)

(** What [main] prints, line by line. *)
Inductive printed : Type :=
| TopBefore (top : list (string * Z))
| TopAfter (top : list (string * Z))
| WeightedAvg (avg : Q)
| Longest (rows : list (string * Z * Z))
| Share (share : Q)
| Inserted
| MongoQuery (docs : list Doc.t)
| TopBigrams (top : list (string * Z))
| TfidfHeader
| TfidfRow (row : string)
| Stored.

(** The command line: [--mongo-uri] and [--folder], [None] by default. *)
Record Args : Type := mkArgs
  { mongo_uri : option string; folder : option string }.

(** What the run reads: the lines of [args.corpus], the files of
    [args.folder], and the rows that [compute_tfidf] returns, which Spark
    ML computes. *)
Record Env : Type := mkEnv
  { corpus_lines : list string;
    folder_files : list (string * string);
    tfidf_rows : list string }.

(** [if s:] on an optional string. *)
Definition truthy (o : option string) : bool :=
  match o with
  | Some (String _ _) => true
  | _ => false
  end.

(** A computation over the database and the lines printed so far, which
    returns or raises. *)
Definition M (A : Type) : Type :=
  Db.t * list printed -> (Db.t * list printed) * result A.

Definition ret {A : Type} (a : A) : M A := fun s => (s, Ok a).

Definition bind {A B : Type} (c : M A) (k : A -> M B) : M B :=
  fun s =>
    match c s with
    | (s', Ok a) => k a s'
    | (s', Raise e) => (s', Raise e)
    end.

Definition lift {A : Type} (r : result A) : M A := fun s => (s, r).

Definition print (p : printed) : M unit :=
  fun s => ((fst s, (snd s ++ [p])%list), Ok tt).

Definition get_db : M Db.t := fun s => (s, Ok (fst s)).

Definition put_db (db : Db.t) : M unit := fun s => ((db, snd s), Ok tt).

Notation "x <- c ;; k" := (bind c (fun x => k))
  (at level 61, c at next level, right associativity).
Notation "c ;; k" := (bind c (fun _ => k))
  (at level 61, right associativity).

Fixpoint print_rows (rows : list string) : M unit :=
  match rows with
  | [] => ret tt
  | r :: rows' => print (TfidfRow r) ;; print_rows rows'
  end.

(** [main()], from the word counts to the stored fan-out.  The Spark
    session and the connection to the store are taken to be there. *)
Definition main (args : Args) (env : Env) : M unit :=
  let counts := rdd_word_counts (corpus_lines env) in
  let '(total, top_before, top_after, filtered) := compare_stopwords counts in
  print (TopBefore top_before) ;;
  print (TopAfter top_after) ;;
  r <- lift (df_from_counts counts) ;;
  let '(df, total_count) := r in
  avg <- lift (weighted_avg_word_length df total_count) ;;
  print (WeightedAvg avg) ;;
  print (Longest (ten_longest df)) ;;
  fs <- lift (filter_count_ge df 2) ;;
  print (Share (snd fs)) ;;
  (if truthy (mongo_uri args) then
     db <- get_db ;;
     put_db (Db.mk (mongo_store_counts counts (Db.words db))
                   (Db.global_wordcount db) (Db.per_file_wordcount db)) ;;
     print Inserted ;;
     db' <- get_db ;;
     print (MongoQuery (firstn 20 (query_mongo_by_length (Db.words db') 7)))
   else ret tt) ;;
  print (TopBigrams (top_bigrams (corpus_lines env) 20)) ;;
  print TfidfHeader ;;
  print_rows (firstn 5 (tfidf_rows env)) ;;
  (if truthy (folder args) && truthy (mongo_uri args) then
     let '(per_file, global_counts) :=
       per_file_and_global_counts (folder_files env) in
     db <- get_db ;;
     put_db (fst (store_global_and_perfile_mongo per_file global_counts db)) ;;
     print Stored
   else ret tt).

(** The run from a database [db], nothing printed yet. *)
Definition run_main (args : Args) (env : Env) (db : Db.t)
  : (Db.t * list printed) * result unit :=
  main args env (db, []).

(** The largest value of a column of type long. *)
Definition long_max : Z := 2 ^ 63 - 1.

(** [str.lower()] on a match and on the text after it. *)
Definition lower_pair (p : string * string) : string * string :=
  (str_lower (fst p), str_lower (snd p)).

(** A match within [a], seen within [a] followed by [sep] and [b]. *)
Definition extend (sep : ascii) (b : string) (o : option (string * string))
  : option (string * string) :=
  match o with
  | Some (m, r) => Some (m, r ++ String sep b)
  | None => None
  end.

(** The documents that [store_global_and_perfile_mongo] builds for one
    per-file entry. *)
Definition file_docs (fd : string * Dict.t) : list FDoc.t :=
  map (fun wc => FDoc.mk (fst fd) (fst wc) (snd wc)) (snd fd).

(** The row that [df_from_counts] builds for one pair. *)
Definition row_of (total : Z) (x : string * Z) : Row.t :=
  Row.mk (fst x) (snd x) (len (fst x)) (sql_div (snd x) total).

(** ** The tokenizer *)

Ltac andb_split H H1 H2 :=
  apply andb_true_iff in H; destruct H as [H1 H2].

Section Tokenizer.
Import Char WordRe.





Lemma match_run_split (s : string) :
  forall prev m r, match_run prev s = Some (m, r) -> s = m ++ r.
Proof.
  induction s as [|c s IH]; intros prev m r; cbn [match_run head].
  - destruct (boundary _ _); [|discriminate].
    intro H; inversion H; reflexivity.
  - destruct (in_class c).
    + destruct (match_run c s) as [[m' r']|] eqn:E.
      * intro H; inversion H; subst. cbn [append].
        now rewrite <- (IH c m' r E).
      * destruct (boundary _ _); [|discriminate].
        intro H; inversion H; reflexivity.
    + destruct (boundary _ _); [|discriminate].
      intro H; inversion H; reflexivity.
Qed.

Lemma length_append (a b : string) :
  String.length (a ++ b) = (String.length a + String.length b)%nat.
Proof. induction a as [|c a IH]; cbn; [reflexivity | now rewrite IH]. Qed.

Lemma match_at_shorter (prev : option ascii) (s m r : string) :
  match_at prev s = Some (m, r) ->
  s = m ++ r /\ (String.length r < String.length s)%nat.
Proof.
  destruct s as [|c s]; cbn [match_at]; [discriminate|].
  destruct (boundary _ _ && in_class c); [|discriminate].
  destruct (match_run c s) as [[m' r']|] eqn:E; [|discriminate].
  intro H; inversion H; subst. apply match_run_split in E. subst s.
  split; [reflexivity|]. cbn [String.length]. rewrite length_append. lia.
Qed.

(** Any fuel from the length of the text on gives the same matches. *)
Lemma findall_fuel_stable (n : nat) :
  forall k prev s,
    (String.length s <= n)%nat -> (String.length s <= k)%nat ->
    findall_fuel n prev s = findall_fuel k prev s.
Proof.
  induction n as [|n IH]; intros k prev s Hn Hk.
  - destruct s; [|cbn in Hn; lia]. now destruct k.
  - destruct s as [|c s]; [now destruct k|].
    destruct k as [|k]; [cbn in Hk; lia|].
    cbn [findall_fuel]. cbn [String.length] in Hn, Hk.
    destruct (match_at prev (String c s)) as [[m r]|] eqn:E.
    + apply match_at_shorter in E. destruct E as [_ Hlt].
      cbn [String.length] in Hlt. f_equal. apply IH; lia.
    + apply IH; lia.
Qed.

Lemma scan_cons (prev : option ascii) (c : ascii) (s : string) :
  scan prev (String c s)
  = match match_at prev (String c s) with
    | Some (m, r) => m :: scan (Some (last_char c m)) r
    | None => scan (Some c) s
    end.
Proof.
  unfold scan. cbn [String.length findall_fuel].
  destruct (match_at prev (String c s)) as [[m r]|] eqn:E.
  - apply match_at_shorter in E. destruct E as [_ Hlt].
    cbn [String.length] in Hlt. f_equal.
    apply findall_fuel_stable; lia.
  - reflexivity.
Qed.













End Tokenizer.




(** ** Sums, dictionaries and reduction by key *)

Lemma fold_add_acc (l : list Z) (a : Z) :
  fold_left Z.add l a = a + fold_left Z.add l 0.
Proof.
  revert a; induction l as [|x l IH]; intro a; simpl.
  - lia.
  - rewrite (IH (a + x)), (IH x). lia.
Qed.

Lemma sum_cons (x : Z) (l : list Z) : RDD.sum (x :: l) = x + RDD.sum l.
Proof. unfold RDD.sum; simpl. now rewrite fold_add_acc. Qed.

Lemma sum_nil : RDD.sum [] = 0.
Proof. reflexivity. Qed.

Lemma sum_Zsum (l : list Z) : RDD.sum l = Zsum l.
Proof.
  induction l as [|x l IH]; [reflexivity|].
  rewrite sum_cons, IH. reflexivity.
Qed.

Lemma sum_app (l1 l2 : list Z) : RDD.sum (l1 ++ l2) = RDD.sum l1 + RDD.sum l2.
Proof.
  induction l1 as [|x l1 IH]; cbn [app].
  - rewrite sum_nil. lia.
  - rewrite !sum_cons, IH. lia.
Qed.

Lemma sum_perm (l1 l2 : list Z) :
  Permutation l1 l2 -> RDD.sum l1 = RDD.sum l2.
Proof.
  induction 1; rewrite ?sum_cons in *; lia.
Qed.

Lemma tally_app (t : string) (l1 l2 : list (string * Z)) :
  tally t (l1 ++ l2) = tally t l1 + tally t l2.
Proof.
  induction l1 as [|[k v] l1 IH]; simpl; lia.
Qed.

Lemma tally_ones (t : string) (ws : list string) :
  tally t (map (fun w => (w, 1)) ws)
  = Z.of_nat (count_occ string_dec ws t).
Proof.
  induction ws as [|w ws IH]; [reflexivity|].
  cbn [map tally count_occ]. rewrite IH.
  destruct (string_dec w t) as [->|Hne].
  - rewrite String.eqb_refl. lia.
  - destruct (String.eqb_spec t w); [congruence | lia].
Qed.

Lemma get_set (d : Dict.t) (k t : string) (v default : Z) :
  Dict.get (Dict.set d k v) t default
  = if String.eqb t k then v else Dict.get d t default.
Proof.
  induction d as [|[k' v'] d IH]; simpl.
  - reflexivity.
  - destruct (String.eqb_spec k k') as [->|Hk]; simpl.
    + destruct (String.eqb_spec t k'); reflexivity.
    + rewrite IH. destruct (String.eqb_spec t k') as [->|Ht].
      * destruct (String.eqb_spec k' k); [congruence | reflexivity].
      * reflexivity.
Qed.

Lemma get_merge_value (k t : string) (v : Z) (acc : list (string * Z)) :
  Dict.get (RDD.merge_value Z.add k v acc) t 0
  = Dict.get acc t 0 + (if String.eqb t k then v else 0).
Proof.
  induction acc as [|[k' v'] acc IH]; simpl.
  - destruct (String.eqb t k); lia.
  - destruct (String.eqb_spec k k') as [->|Hk]; simpl.
    + destruct (String.eqb_spec t k'); lia.
    + rewrite IH. destruct (String.eqb_spec t k') as [->|Ht].
      * destruct (String.eqb_spec k' k); [congruence | lia].
      * reflexivity.
Qed.

Lemma get_fold_merge (l acc : list (string * Z)) (t : string) :
  Dict.get
    (fold_left (fun a kv => RDD.merge_value Z.add (fst kv) (snd kv) a) l acc)
    t 0
  = Dict.get acc t 0 + tally t l.
Proof.
  revert acc; induction l as [|[k v] l IH]; intro acc; simpl.
  - lia.
  - rewrite IH, get_merge_value. lia.
Qed.

Lemma get_reduceByKey (l : list (string * Z)) (t : string) :
  Dict.get (RDD.reduceByKey Z.add l) t 0 = tally t l.
Proof. unfold RDD.reduceByKey. now rewrite get_fold_merge. Qed.

Lemma get_Counter_acc (ws : list string) (d : Dict.t) (t : string) :
  Dict.get (fold_left (fun d w => Dict.set d w (Dict.get d w 0 + 1)) ws d)
           t 0
  = Dict.get d t 0 + Z.of_nat (count_occ string_dec ws t).
Proof.
  revert d; induction ws as [|w ws IH]; intro d.
  - simpl. lia.
  - cbn [fold_left count_occ]. rewrite IH, get_set.
    destruct (string_dec w t) as [->|Hne].
    + rewrite String.eqb_refl. lia.
    + destruct (String.eqb_spec t w); [congruence | lia].
Qed.

Lemma get_Counter (ws : list string) (t : string) :
  Dict.get (Counter ws) t 0 = Z.of_nat (count_occ string_dec ws t).
Proof. unfold Counter. now rewrite get_Counter_acc. Qed.

Lemma sum_merge_value (k : string) (v : Z) (acc : list (string * Z)) :
  RDD.sum (map snd (RDD.merge_value Z.add k v acc))
  = RDD.sum (map snd acc) + v.
Proof.
  induction acc as [|[k' v'] acc IH]; cbn [RDD.merge_value map snd].
  - rewrite sum_cons, !sum_nil. lia.
  - destruct (String.eqb k k'); cbn [map snd]; rewrite !sum_cons;
      [|rewrite IH]; lia.
Qed.

Lemma sum_reduceByKey (l : list (string * Z)) :
  RDD.sum (map snd (RDD.reduceByKey Z.add l)) = RDD.sum (map snd l).
Proof.
  unfold RDD.reduceByKey.
  assert (H : forall acc,
    RDD.sum (map snd (fold_left
      (fun a kv => RDD.merge_value Z.add (fst kv) (snd kv) a) l acc))
    = RDD.sum (map snd acc) + RDD.sum (map snd l)).
  { induction l as [|[k v] l IH]; intro acc; cbn [fold_left map fst snd].
    - rewrite sum_nil. lia.
    - rewrite IH, sum_merge_value, sum_cons. lia. }
  rewrite H. cbn [map]. rewrite sum_nil. lia.
Qed.

Section Keys.
Context {V : Type}.
Implicit Types (l acc : list (string * V)).

Lemma keys_merge_value (f : V -> V -> V) (k : string) (v : V) acc :
  map fst (RDD.merge_value f k v acc)
  = if in_dec string_dec k (map fst acc) then map fst acc
    else (map fst acc ++ [k])%list.
Proof.
  induction acc as [|[k' v'] acc IH]; simpl; [reflexivity|].
  destruct (String.eqb_spec k k') as [->|Hk]; simpl.
  - destruct (string_dec k' k'); [reflexivity | congruence].
  - rewrite IH. destruct (string_dec k' k); [congruence|].
    destruct (in_dec string_dec k (map fst acc)); reflexivity.
Qed.

Lemma NoDup_merge_value (f : V -> V -> V) (k : string) (v : V) acc :
  NoDup (map fst acc) -> NoDup (map fst (RDD.merge_value f k v acc)).
Proof.
  intro H. rewrite keys_merge_value.
  destruct (in_dec string_dec k (map fst acc)) as [Hin|Hout]; [exact H|].
  apply NoDup_app; [exact H | repeat constructor; intros [] | ].
  intros x Hx [<-|[]]. contradiction.
Qed.

Lemma NoDup_reduceByKey (f : V -> V -> V) l :
  NoDup (map fst (RDD.reduceByKey f l)).
Proof.
  unfold RDD.reduceByKey.
  assert (H : forall acc, NoDup (map fst acc) ->
    NoDup (map fst (fold_left
      (fun a kv => RDD.merge_value f (fst kv) (snd kv) a) l acc))).
  { induction l as [|[k v] l IH]; intros acc Hacc; simpl; [exact Hacc|].
    apply IH, NoDup_merge_value, Hacc. }
  apply H. constructor.
Qed.
End Keys.

Lemma get_In (l : list (string * Z)) (k : string) (v default : Z) :
  NoDup (map fst l) -> In (k, v) l -> Dict.get l k default = v.
Proof.
  induction l as [|[k' v'] l IH]; simpl; intros Hnd Hin; [contradiction|].
  inversion Hnd as [|? ? Hnotin Hnd']; subst.
  destruct Hin as [Heq|Hin].
  - inversion Heq; subst. now rewrite String.eqb_refl.
  - destruct (String.eqb_spec k k') as [->|Hne].
    + exfalso. apply Hnotin. change k' with (fst (k', v)). now apply in_map.
    + now apply IH.
Qed.

Lemma get_notin (l : list (string * Z)) (k : string) (default : Z) :
  ~ In k (map fst l) -> Dict.get l k default = default.
Proof.
  induction l as [|[k' v'] l IH]; simpl; intro Hnotin; [reflexivity|].
  destruct (String.eqb_spec k k') as [->|Hne].
  - exfalso. apply Hnotin. now left.
  - apply IH. intro Hin. apply Hnotin. now right.
Qed.

Lemma get_perm (l l' : list (string * Z)) (k : string) (default : Z) :
  NoDup (map fst l) -> Permutation l' l ->
  Dict.get l' k default = Dict.get l k default.
Proof.
  intros Hnd Hperm.
  assert (Hnd' : NoDup (map fst l')).
  { eapply Permutation_NoDup; [|exact Hnd].
    apply Permutation_map, Permutation_sym, Hperm. }
  destruct (in_dec string_dec k (map fst l)) as [Hin|Hout].
  - apply in_map_iff in Hin. destruct Hin as [[k0 v] [Hk Hin]].
    simpl in Hk; subst k0.
    rewrite (get_In l k v default Hnd Hin).
    apply get_In; [exact Hnd'|].
    eapply Permutation_in; [apply Permutation_sym, Hperm | exact Hin].
  - rewrite (get_notin l k default Hout). apply get_notin.
    intro Hin. apply Hout.
    eapply Permutation_in; [apply Permutation_map, Hperm | exact Hin].
Qed.

(** ** Word counts *)

Lemma sum_ones (ws : list string) :
  RDD.sum (map snd (map (fun w : string => (w, 1)) ws))
  = Z.of_nat (List.length ws).
Proof.
  induction ws as [|w ws IH]; [reflexivity|].
  cbn [map snd List.length]. rewrite sum_cons, IH. lia.
Qed.

(** C2: whatever order the engine lists the reduced pairs in, the counts
    of [rdd_word_counts] add up to the number of tokens that [tokenize]
    emits over the lines. *)
Theorem counts_sum_to_token_total
        (lines : list string) (rdd : list (string * Z)) :
  Permutation rdd (rdd_word_counts lines) ->
  RDD.sum (map snd rdd)
  = Z.of_nat (List.length (flat_map tokenize lines)).
Proof.
  intro Hperm.
  rewrite (sum_perm _ _ (Permutation_map snd Hperm)).
  unfold rdd_word_counts. now rewrite sum_reduceByKey, sum_ones.
Qed.

Lemma counts_sum_to_token_total_witness :
  Permutation [("b", 1); ("a", 2)] (rdd_word_counts ["a b"; "A"])
  /\ RDD.sum (map snd [("b", 1); ("a", 2)])
     = Z.of_nat (List.length (flat_map tokenize ["a b"; "A"])).
Proof.
  assert (H : Permutation [("b", 1); ("a", 2)]
                          (rdd_word_counts ["a b"; "A"])).
  { vm_compute. apply perm_swap. }
  split; [exact H | exact (counts_sum_to_token_total _ _ H)].
Defined.

(** ** Per-file and global counts *)

Lemma count_occ_flat_map (files : list (string * string)) (t : string) :
  Z.of_nat (count_occ string_dec
              (flat_map (fun kv => tokenize (snd kv)) files) t)
  = Zsum (map (fun kv => Z.of_nat (count_occ string_dec
                                     (tokenize (snd kv)) t)) files).
Proof.
  induction files as [|kv files IH]; [reflexivity|].
  cbn [flat_map map Zsum fold_right]. rewrite count_occ_app.
  fold (Zsum (map (fun kv => Z.of_nat (count_occ string_dec
                                         (tokenize (snd kv)) t)) files)).
  rewrite <- IH. lia.
Qed.

(** C1: for every token [t], the global count of [t] (0 when absent) is
    the sum over the per-file entries of that file's count of [t]. *)
Theorem global_counts_sum_per_file
        (files : list (string * string)) (t : string)
        (rdd : list (string * Z)) :
  Permutation rdd (snd (per_file_and_global_counts files)) ->
  Dict.get rdd t 0
  = Zsum (map (fun fd => Dict.get (snd fd) t 0)
              (fst (per_file_and_global_counts files))).
Proof.
  intro Hperm. cbn [per_file_and_global_counts fst snd] in *.
  rewrite (get_perm _ _ t 0 (NoDup_reduceByKey Z.add _) Hperm).
  rewrite get_reduceByKey, tally_ones, count_occ_flat_map.
  rewrite !map_map. f_equal. apply map_ext. intro kv. cbn [snd].
  now rewrite get_Counter.
Qed.

Lemma global_counts_sum_per_file_witness :
  let files := [("file:/d/x.txt", "a b a"); ("file:/d/y.txt", "b c")] in
  let rdd := [("c", 1); ("b", 2); ("a", 2)] in
  Permutation rdd (snd (per_file_and_global_counts files))
  /\ Dict.get rdd "b" 0
     = Zsum (map (fun fd => Dict.get (snd fd) "b" 0)
                 (fst (per_file_and_global_counts files))).
Proof.
  intros files rdd.
  assert (H : Permutation rdd (snd (per_file_and_global_counts files))).
  { vm_compute. apply (Permutation_rev [("c", 1); ("b", 2); ("a", 2)]). }
  split; [exact H | exact (global_counts_sum_per_file files "b" rdd H)].
Defined.

Lemma split_nonempty (sep : ascii) (s : string) : split sep s <> [].
Proof.
  destruct s as [|c s]; simpl; [discriminate|].
  destruct (Ascii.eqb c sep); [discriminate|].
  destruct (split sep s); discriminate.
Qed.

Lemma split_no_slash (name : string) :
  no_slash name = true -> split "/" name = [name].
Proof.
  induction name as [|c name IH]; simpl; [reflexivity|].
  intro H. andb_split H Hc Hn.
  apply negb_true_iff in Hc. rewrite Hc, (IH Hn). reflexivity.
Qed.

Lemma split_join (sep : ascii) (x y : string) :
  split sep (x ++ String sep y) = (split sep x ++ split sep y)%list.
Proof.
  induction x as [|c x IH]; cbn [append split].
  - now rewrite Ascii.eqb_refl.
  - destruct (Ascii.eqb c sep).
    + now rewrite IH.
    + rewrite IH. destruct (split sep x) as [|p ps] eqn:E.
      * exfalso. exact (split_nonempty _ _ E).
      * reflexivity.
Qed.

Lemma basename_join (dir name : string) :
  no_slash name = true -> basename (dir ++ "/" ++ name) = name.
Proof.
  intro H. unfold basename. cbn [append].
  rewrite split_join, (split_no_slash name H). apply last_last.
Qed.

(** C10: the per-file entries are keyed by the last [/]-separated segment
    of the path alone, so two files of one name in two directories give
    two entries with one key. *)
Theorem per_file_keyed_by_basename :
  (forall files,
      map fst (fst (per_file_and_global_counts files))
      = map (fun kv => basename (fst kv)) files)
  /\ (forall dir name,
         no_slash name = true -> basename (dir ++ "/" ++ name) = name)
  /\ exists files,
      NoDup (map fst files)
      /\ ~ NoDup (map fst (fst (per_file_and_global_counts files))).
Proof.
  split; [|split].
  - intro files. cbn [per_file_and_global_counts fst].
    rewrite !map_map. reflexivity.
  - exact basename_join.
  - exists [("file:/d1/x.txt", "a b a"); ("file:/d2/x.txt", "b c")].
    split.
    + constructor; [|constructor; [intros []|constructor]].
      intros [H|[]]. discriminate H.
    + vm_compute. intro H. inversion H as [|? ? Hnotin ?]; subst.
      apply Hnotin. now left.
Qed.

(** ** Stopwords *)

Lemma in_stopwords_iff (w : string) :
  in_stopwords w = true <-> In w STOPWORDS.
Proof.
  unfold in_stopwords. rewrite existsb_exists. split.
  - intros [x [Hin Heq]]. apply String.eqb_eq in Heq. now subst.
  - intro Hin. exists w. split; [exact Hin | apply String.eqb_refl].
Qed.

Lemma stopword_filter_In (counts_rdd : list (string * Z)) (x : string * Z) :
  In x (stopword_filter counts_rdd)
  <-> In x counts_rdd /\ ~ In (fst x) STOPWORDS.
Proof.
  unfold stopword_filter. rewrite filter_In, negb_true_iff.
  rewrite <- in_stopwords_iff. now destruct (in_stopwords (fst x)).
Qed.

(** C6, as amended: the filtered distribution keeps exactly the entries
    whose key is no stopword, counts and order untouched; its keys are
    among those of the unfiltered one, and some key is lost exactly when
    a stopword was a key. *)
Theorem stopword_filter_subset (counts_rdd : list (string * Z)) :
  snd (compare_stopwords counts_rdd) = stopword_filter counts_rdd
  /\ (forall w c, In (w, c) (stopword_filter counts_rdd)
                  <-> In (w, c) counts_rdd /\ ~ In w STOPWORDS)
  /\ incl (map fst (stopword_filter counts_rdd)) (map fst counts_rdd)
  /\ (incl (map fst counts_rdd) (map fst (stopword_filter counts_rdd))
      <-> forall w, In w (map fst counts_rdd) -> ~ In w STOPWORDS).
Proof.
  split; [reflexivity|]. split; [|split].
  - intros w c. apply (stopword_filter_In counts_rdd (w, c)).
  - intros w Hin. apply in_map_iff in Hin. destruct Hin as [x [Hw Hin]].
    apply stopword_filter_In in Hin. apply in_map_iff. exists x. tauto.
  - split.
    + intros Hincl w Hin. apply Hincl, in_map_iff in Hin.
      destruct Hin as [x [Hw Hin]]. apply stopword_filter_In in Hin.
      subst w. tauto.
    + intros Hno w Hin. pose proof (Hno w Hin) as Hw.
      apply in_map_iff in Hin. destruct Hin as [x [Hx Hin]].
      apply in_map_iff. exists x. split; [exact Hx|].
      apply stopword_filter_In. subst w. tauto.
Qed.

(** C6 fails as stated: with no stopword among the keys the filtered
    distribution is the whole distribution, not a strict part of it. *)
Lemma stopword_filter_not_strict :
  let counts_rdd := [("cat", 1)] in
  stopword_filter counts_rdd = counts_rdd
  /\ ~ (incl (map fst (stopword_filter counts_rdd)) (map fst counts_rdd)
        /\ ~ incl (map fst counts_rdd)
                  (map fst (stopword_filter counts_rdd))).
Proof.
  split; [reflexivity|]. intros [_ Hstrict]. apply Hstrict.
  vm_compute. intros w H. exact H.
Qed.

(** ** Bigrams *)

Lemma bigrams_of_cons (a : string) (ws : list string) :
  bigrams_of (a :: ws) = map joined (combine (a :: ws) ws).
Proof.
  unfold bigrams_of. cbn [List.length]. rewrite Nat.sub_succ, Nat.sub_0_r.
  revert a; induction ws as [|b ws IH]; intro a; [reflexivity|].
  change (combine (a :: b :: ws) (b :: ws))
    with ((a, b) :: combine (b :: ws) ws).
  cbn [List.length seq map].
  rewrite <- seq_shift, map_map, <- (IH b). reflexivity.
Qed.

Lemma bigrams_of_adjacent (ws : list string) :
  bigrams_of ws = map joined (combine ws (tl ws)).
Proof. destruct ws as [|a ws]; [reflexivity | apply bigrams_of_cons]. Qed.

Lemma bigrams_of_length (ws : list string) :
  List.length (bigrams_of ws) = (List.length ws - 1)%nat.
Proof. unfold bigrams_of. now rewrite length_map, length_seq. Qed.

Lemma bigram_occurrences_per_line (lines : list string) :
  bigram_occurrences lines
  = flat_map (fun l => bigrams_of (tokenize l)) lines.
Proof.
  unfold bigram_occurrences.
  induction lines as [|l lines IH]; [reflexivity|].
  cbn [map filter flat_map]. destruct (tokenize l) as [|w ws] eqn:E.
  - cbn [is_nonempty]. rewrite IH. reflexivity.
  - cbn [is_nonempty flat_map]. now rewrite IH.
Qed.

Lemma bigram_occurrences_ones (lines : list string) :
  bigram_occurrences lines
  = map (fun b => (b, 1)) (map fst (bigram_occurrences lines)).
Proof.
  rewrite bigram_occurrences_per_line.
  induction lines as [|l lines IH]; [reflexivity|].
  cbn [flat_map]. rewrite !map_app, <- IH. f_equal.
  rewrite bigrams_of_adjacent, !map_map. apply map_ext.
  intros [x y]. reflexivity.
Qed.

(** C7: a record of [k] tokens gives its [k - 1] adjacent pairs (none
    when [k] is 0), each joined by one space and emitted once; the pairs
    of a collection are those of its records one after the other, so none
    spans two records; and the count kept for a bigram is the number of
    times it was emitted, each bigram being kept once. *)
Theorem bigrams_within_records (lines : list string) :
  (forall ws, bigrams_of ws = map joined (combine ws (tl ws))
              /\ List.length (bigrams_of ws) = (List.length ws - 1)%nat)
  /\ bigram_occurrences lines
     = flat_map (fun l => bigrams_of (tokenize l)) lines
  /\ NoDup (map fst (bigram_counts lines))
  /\ (forall b, Dict.get (bigram_counts lines) b 0
                = Z.of_nat (count_occ string_dec
                              (map fst (bigram_occurrences lines)) b))
  /\ (forall top_k, top_bigrams lines top_k
                    = RDD.takeOrdered neg_count top_k (bigram_counts lines)).
Proof.
  split; [|split; [|split; [|split]]].
  - intro ws. split; [apply bigrams_of_adjacent | apply bigrams_of_length].
  - apply bigram_occurrences_per_line.
  - apply NoDup_reduceByKey.
  - intro b. unfold bigram_counts.
    rewrite get_reduceByKey, bigram_occurrences_ones at 1.
    apply tally_ones.
  - reflexivity.
Qed.

(** ** Word records *)

Lemma df_from_counts_rows (x : string * Z) (counts_rdd : list (string * Z)) :
  exists df total,
    df_from_counts (x :: counts_rdd) = Ok (df, total)
    /\ total = Some (RDD.sum (map snd (x :: counts_rdd)))
    /\ map Row.word df = map fst (x :: counts_rdd)
    /\ map Row.count df = map snd (x :: counts_rdd)
    /\ map Row.length df = map (fun wc => len (fst wc)) (x :: counts_rdd).
Proof.
  eexists; eexists. split; [reflexivity|].
  rewrite !map_map. cbn [sql_sum map].
  repeat split; try (f_equal; [ destruct x; reflexivity|]);
    try (apply map_ext; intros [w c]; reflexivity).
Qed.

(** C9: in every row that [df_from_counts] returns and in every document
    that [mongo_store_counts] leaves in the collection, [length] is the
    number of characters of [word]. *)
Theorem length_is_len_of_word
        (counts_rdd : list (string * Z)) (df : list Row.t)
        (total : option Z) (coll : list Doc.t) :
  df_from_counts counts_rdd = Ok (df, total) ->
  Forall (fun r => Row.length r = len (Row.word r)) df
  /\ Forall (fun d => Doc.length d = len (Doc.word d))
            (mongo_store_counts counts_rdd coll).
Proof.
  intro H. split.
  - destruct counts_rdd as [|x l]; [discriminate|].
    unfold df_from_counts in H. rewrite !map_map in H.
    injection H as Hdf _. subst df.
    apply Forall_forall. intros r Hin.
    destruct Hin as [<-|Hin]; [reflexivity|].
    apply in_map_iff in Hin. destruct Hin as [wc [<- _]]. reflexivity.
  - unfold mongo_store_counts.
    destruct counts_rdd as [|x l]; [constructor|].
    cbn [map app]. apply Forall_forall. intros d Hin.
    change (In d (map (fun wc => Doc.mk (fst wc) (snd wc) (len (fst wc)))
                      (x :: l))) in Hin.
    apply in_map_iff in Hin. destruct Hin as [wc [<- _]]. reflexivity.
Qed.

Lemma length_is_len_of_word_witness :
  exists df total,
    df_from_counts [("the", 2); ("cat", 1)] = Ok (df, total)
    /\ Forall (fun r => Row.length r = len (Row.word r)) df
    /\ Forall (fun d => Doc.length d = len (Doc.word d))
              (mongo_store_counts [("the", 2); ("cat", 1)] []).
Proof.
  eexists; eexists.
  assert (H : df_from_counts [("the", 2); ("cat", 1)] = Ok (_, _))
    by reflexivity.
  split; [exact H|].
  exact (length_is_len_of_word [("the", 2); ("cat", 1)] _ _ [] H).
Defined.

(** ** Zero totals *)

(** C4, as amended: over a distribution whose counts total zero, as the
    empty one does, neither computation returns.  The weighted average,
    given the SQL sum of the counts as total, raises [TypeError] when
    there is no row (the sum over no rows is [None]) and
    [ZeroDivisionError] otherwise; the share raises [TypeError] when no
    row reaches the threshold, as when there is no row, and
    [ZeroDivisionError] otherwise. *)
Theorem zero_total_raises (df : list Row.t) (n : Z) :
  RDD.sum (map Row.count df) = 0 ->
  weighted_avg_word_length df (sql_sum (map Row.count df))
  = Raise match df with
          | [] => TypeError
          | _ :: _ => ZeroDivisionError
          end
  /\ filter_count_ge df n
     = Raise match retained df n with
             | [] => TypeError
             | _ :: _ => ZeroDivisionError
             end.
Proof.
  intro Hzero. split.
  - unfold weighted_avg_word_length.
    destruct df as [|r df]; [reflexivity|].
    cbn [map sql_sum] in *. rewrite Hzero. reflexivity.
  - unfold filter_count_ge. fold (retained df n).
    destruct (retained df n) as [|r rs] eqn:E; [reflexivity|].
    destruct df as [|r' df]; [discriminate E|].
    cbn [map sql_sum] in *. rewrite Hzero. reflexivity.
Qed.

Lemma zero_total_raises_witness :
  RDD.sum (map Row.count []) = 0
  /\ weighted_avg_word_length [] (sql_sum (map Row.count []))
     = Raise TypeError
  /\ filter_count_ge [] 2 = Raise TypeError.
Proof.
  split; [reflexivity | apply (zero_total_raises [] 2); reflexivity].
Defined.

(** C4 fails as stated: on the empty corpus both computations raise, and
    so does the construction of the DataFrame before them. *)
Lemma empty_corpus_raises :
  rdd_word_counts [] = []
  /\ df_from_counts (rdd_word_counts []) = Raise ValueError
  /\ is_ok (weighted_avg_word_length [] (sql_sum [])) = false
  /\ weighted_avg_word_length [] (sql_sum []) = Raise TypeError
  /\ weighted_avg_word_length [] (Some 0) = Raise ZeroDivisionError
  /\ is_ok (filter_count_ge [] 2) = false
  /\ filter_count_ge [] 2 = Raise TypeError.
Proof. repeat split. Qed.

Lemma weighted_avg_defined (df : list Row.t) (total : Z) :
  total <> 0 ->
  weighted_avg_word_length df (Some total)
  = Ok (Qdiv
          (inject_Z (RDD.sum (map (fun r => Row.length r * Row.count r) df)))
          (inject_Z total)).
Proof.
  intro H. unfold weighted_avg_word_length, truediv.
  destruct (Z.eqb_spec total 0); [contradiction | reflexivity].
Qed.

(** ** Frequency share *)

(** C5, where the code departs from it: a threshold above every count
    retains nothing, the sum over no rows is [NULL], and the division of
    [None] raises [TypeError] where a share of 0 is expected. *)
Theorem filter_count_ge_above_max (df : list Row.t) (n : Z) :
  df <> [] ->
  (forall r, In r df -> Row.count r < n) ->
  retained df n = [] /\ filter_count_ge df n = Raise TypeError.
Proof.
  intros Hne Hmax.
  assert (Hnil : retained df n = []).
  { unfold retained. clear Hne. induction df as [|r df IH]; [reflexivity|].
    cbn [filter]. destruct (Z.leb_spec n (Row.count r)) as [Hle|Hlt].
    - specialize (Hmax r (or_introl eq_refl)). lia.
    - apply IH. intros r' Hin. apply Hmax. now right. }
  split; [exact Hnil|].
  unfold filter_count_ge. fold (retained df n). rewrite Hnil.
  reflexivity.
Qed.

Lemma filter_count_ge_above_max_witness :
  let df := [Row.mk "the" 2 3 None; Row.mk "cat" 1 3 None;
             Row.mk "sat" 2 3 None; Row.mk "dog" 1 3 None] in
  df <> []
  /\ (forall r, In r df -> Row.count r < 3)
  /\ retained df 3 = [] /\ filter_count_ge df 3 = Raise TypeError.
Proof.
  intro df.
  assert (Hne : df <> []) by discriminate.
  assert (Hmax : forall r, In r df -> Row.count r < 3).
  { intros r Hin. simpl in Hin.
    destruct Hin as [<-|[<-|[<-|[<-|[]]]]]; simpl; lia. }
  split; [exact Hne|]. split; [exact Hmax|].
  exact (filter_count_ge_above_max df 3 Hne Hmax).
Defined.

Lemma sum_retained_bounds (df : list Row.t) (n : Z) :
  Forall (fun r => 1 <= Row.count r) df ->
  0 <= RDD.sum (map Row.count (retained df n))
    <= RDD.sum (map Row.count df).
Proof.
  induction 1 as [|r df Hr Hdf IH]; [vm_compute; split; discriminate|].
  unfold retained in *. cbn [filter map].
  destruct (n <=? Row.count r); cbn [map]; rewrite !sum_cons; lia.
Qed.

Lemma sum_positive (df : list Row.t) :
  Forall (fun r => 1 <= Row.count r) df -> df <> [] ->
  0 < RDD.sum (map Row.count df).
Proof.
  intros H Hne. destruct H as [|r df Hr Hdf]; [congruence|].
  cbn [map]. rewrite sum_cons.
  pose proof (sum_retained_bounds df 0 Hdf). lia.
Qed.

Lemma retained_all (df : list Row.t) (n : Z) :
  (forall r, In r df -> n <= Row.count r) -> retained df n = df.
Proof.
  intro H. unfold retained. induction df as [|r df IH]; [reflexivity|].
  cbn [filter]. destruct (Z.leb_spec n (Row.count r)) as [Hle|Hlt].
  - f_equal. apply IH. intros r' Hin. apply H. now right.
  - specialize (H r (or_introl eq_refl)). lia.
Qed.

(** The part of C5 that holds: when some count reaches the threshold,
    the share is the retained counts over all counts, within [0, 1], and
    1 when every count reaches the threshold. *)
Lemma filter_count_ge_share (df : list Row.t) (n : Z) :
  Forall (fun r => 1 <= Row.count r) df ->
  (exists r, In r df /\ n <= Row.count r) ->
  exists share,
    filter_count_ge df n = Ok (retained df n, share)
    /\ share = Qdiv (inject_Z (RDD.sum (map Row.count (retained df n))))
                     (inject_Z (RDD.sum (map Row.count df)))
    /\ (0 <= share)%Q /\ (share <= 1)%Q
    /\ ((forall r, In r df -> n <= Row.count r) -> (share == 1)%Q).
Proof.
  intros Hpos [r [Hin Hr]].
  assert (Hne : df <> []) by (intro E; subst; contradiction).
  assert (Hret : retained df n <> []).
  { intro E. assert (Hr' : In r (retained df n)).
    { apply filter_In. split; [exact Hin | now apply Z.leb_le]. }
    rewrite E in Hr'. contradiction. }
  pose proof (sum_positive df Hpos Hne) as Htot.
  pose proof (sum_retained_bounds df n Hpos) as Hb.
  eexists. split; [|split; [reflexivity|]].
  - unfold filter_count_ge. fold (retained df n).
    destruct (map Row.count (retained df n)) as [|c cs] eqn:Ec.
    { destruct (retained df n); [congruence | discriminate]. }
    destruct (map Row.count df) as [|d ds] eqn:Ed.
    { destruct df; [congruence | discriminate]. }
    cbn [sql_sum truediv].
    destruct (Z.eqb_spec (RDD.sum (d :: ds)) 0); [lia | reflexivity].
  - assert (Hq : (0 < inject_Z (RDD.sum (map Row.count df)))%Q).
    { change 0%Q with (inject_Z 0). rewrite <- Zlt_Qlt. exact Htot. }
    split; [|split].
    + apply Qle_shift_div_l; [exact Hq|]. rewrite Qmult_0_l.
      change 0%Q with (inject_Z 0). rewrite <- Zle_Qle. lia.
    + apply Qle_shift_div_r; [exact Hq|]. rewrite Qmult_1_l.
      rewrite <- Zle_Qle. lia.
    + intro Hall. rewrite (retained_all df n Hall).
      apply Qmult_inv_r. intro E. rewrite E in Hq.
      exact (Qlt_irrefl _ Hq).
Qed.

(** ** Ordering *)

Section Stable.
Context {A : Type} (key : A -> Z).

Lemma insert_by_perm (x : A) (l : list A) :
  Permutation (RDD.insert_by key x l) (x :: l).
Proof.
  induction l as [|y l IH]; cbn [RDD.insert_by]; [reflexivity|].
  destruct (key x <=? key y); [reflexivity|].
  rewrite IH. apply perm_swap.
Qed.

Lemma sorted_perm (l : list A) : Permutation (RDD.sorted key l) l.
Proof.
  induction l as [|x l IH]; cbn [RDD.sorted fold_right]; [reflexivity|].
  fold (RDD.sorted key l). rewrite insert_by_perm. now constructor.
Qed.

Lemma insert_by_In (x y : A) (l : list A) :
  In y (RDD.insert_by key x l) -> y = x \/ In y l.
Proof.
  intro H. apply (Permutation_in _ (insert_by_perm x l)) in H.
  destruct H as [H|H]; [left; now symmetry | now right].
Qed.

Lemma insert_by_sorted (x : A) (l : list A) :
  StronglySorted (fun a b => key a <= key b) l ->
  StronglySorted (fun a b => key a <= key b) (RDD.insert_by key x l).
Proof.
  induction 1 as [|y l Hl IH Hy]; cbn [RDD.insert_by].
  - repeat constructor.
  - destruct (Z.leb_spec (key x) (key y)) as [Hle|Hlt].
    + constructor; [now constructor|]. constructor; [exact Hle|].
      rewrite Forall_forall in Hy |- *. intros z Hz.
      specialize (Hy z Hz). lia.
    + constructor; [exact IH|]. rewrite Forall_forall in Hy |- *.
      intros z Hz. apply insert_by_In in Hz.
      destruct Hz as [->|Hz]; [lia | now apply Hy].
Qed.

(** [sorted] lists its elements by increasing key, so [takeOrdered] with
    the key [neg_count] lists them by decreasing count. *)
Lemma sorted_ordered (l : list A) :
  StronglySorted (fun a b => key a <= key b) (RDD.sorted key l).
Proof.
  induction l as [|x l IH]; cbn [RDD.sorted fold_right]; [constructor|].
  now apply insert_by_sorted.
Qed.

(** The sort is stable: the elements of one key keep the order they had. *)
Lemma insert_by_stable (k : Z) (x : A) (l : list A) :
  filter (fun y => key y =? k) (RDD.insert_by key x l)
  = filter (fun y => key y =? k) (x :: l).
Proof.
  induction l as [|y l IH]; cbn [RDD.insert_by]; [reflexivity|].
  destruct (Z.leb_spec (key x) (key y)) as [Hle|Hlt]; [reflexivity|].
  cbn [filter] in *. rewrite IH.
  destruct (Z.eqb_spec (key y) k), (Z.eqb_spec (key x) k);
    try reflexivity; lia.
Qed.

Lemma sorted_stable (k : Z) (l : list A) :
  filter (fun y => key y =? k) (RDD.sorted key l)
  = filter (fun y => key y =? k) l.
Proof.
  induction l as [|x l IH]; cbn [RDD.sorted fold_right]; [reflexivity|].
  fold (RDD.sorted key l). rewrite insert_by_stable.
  cbn [filter]. now rewrite IH.
Qed.
End Stable.

Section Perms.
Context {A : Type}.

Lemma insert_all_In (x : A) (l1 l2 : list A) :
  In (l1 ++ x :: l2)%list (insert_all x (l1 ++ l2)%list).
Proof.
  induction l1 as [|y l1 IH]; cbn [app insert_all].
  - destruct l2; now left.
  - right. apply in_map, IH.
Qed.

Lemma perms_complete (l l' : list A) :
  Permutation l' l -> In l' (perms l).
Proof.
  revert l'; induction l as [|x l IH]; intros l' Hperm.
  - apply Permutation_sym, Permutation_nil in Hperm. subst. now left.
  - assert (Hin : In x l').
    { eapply Permutation_in; [apply Permutation_sym, Hperm | now left]. }
    apply in_split in Hin. destruct Hin as [l1 [l2 ->]].
    apply Permutation_sym, Permutation_cons_app_inv in Hperm.
    cbn [perms]. apply in_flat_map. exists (l1 ++ l2)%list. split.
    + apply IH, Permutation_sym, Hperm.
    + apply insert_all_In.
Qed.
End Perms.

Lemma filter_perm {A : Type} (f : A -> bool) (l l' : list A) :
  Permutation l l' -> Permutation (filter f l) (filter f l').
Proof.
  induction 1 as [|x l l' H IH|x y l|l l' l'' H1 IH1 H2 IH2];
    cbn [filter].
  - constructor.
  - destruct (f x); [now constructor | exact IH].
  - destruct (f x), (f y); try reflexivity. apply perm_swap.
  - now transitivity (filter f l').
Qed.

(** C8, as amended: on the sample corpus the tokens, the counts and the
    stopword-filtered counts are those of the scenario, in whatever order
    the engine lists the pairs; the two entries of highest count are
    [("sat", 2)] and then the first entry of count 1 in that order, no
    comparison of keys taking part; with the keys in the order of their
    first occurrence this is [[("sat", 2); ("cat", 1)]]. *)
Theorem corpus_scenario (rdd : list (string * Z)) :
  Permutation rdd (rdd_word_counts [corpus]) ->
  tokenize corpus = ["the"; "cat"; "sat"; "the"; "dog"; "sat"]
  /\ Permutation rdd [("the", 2); ("cat", 1); ("sat", 2); ("dog", 1)]
  /\ Permutation (stopword_filter rdd) [("cat", 1); ("sat", 2); ("dog", 1)]
  /\ RDD.takeOrdered neg_count 2 (stopword_filter rdd)
     = ("sat", 2) :: firstn 1 (filter (fun x => snd x =? 1)
                                      (stopword_filter rdd))
  /\ RDD.takeOrdered neg_count 2 (stopword_filter (rdd_word_counts [corpus]))
     = [("sat", 2); ("cat", 1)].
Proof.
  intro Hperm. split; [reflexivity|]. split; [exact Hperm|].
  split; [|split; [|reflexivity]].
  - apply (filter_perm (fun x => negb (in_stopwords (fst x)))) in Hperm.
    exact Hperm.
  - apply perms_complete in Hperm. vm_compute in Hperm.
    repeat (destruct Hperm as [<-|Hperm]; [reflexivity|]).
    contradiction.
Qed.

Lemma corpus_scenario_witness :
  let rdd := [("dog", 1); ("sat", 2); ("cat", 1); ("the", 2)] in
  Permutation rdd (rdd_word_counts [corpus])
  /\ RDD.takeOrdered neg_count 2 (stopword_filter rdd)
     = ("sat", 2) :: firstn 1 (filter (fun x => snd x =? 1)
                                      (stopword_filter rdd)).
Proof.
  intro rdd.
  assert (H : Permutation rdd (rdd_word_counts [corpus])).
  { apply (Permutation_rev [("dog", 1); ("sat", 2); ("cat", 1); ("the", 2)]). }
  split; [exact H|].
  exact (proj1 (proj2 (proj2 (proj2 (corpus_scenario rdd H))))).
Defined.

(** C8 fails as stated: equal counts are not ordered by key.  When the
    engine lists [dog] before [cat], the two entries of highest count are
    [sat] and [dog]. *)
Lemma top2_follows_encounter_order :
  let rdd := [("dog", 1); ("sat", 2); ("cat", 1); ("the", 2)] in
  Permutation rdd (rdd_word_counts [corpus])
  /\ RDD.takeOrdered neg_count 2 (stopword_filter rdd)
     = [("sat", 2); ("dog", 1)]
  /\ RDD.takeOrdered neg_count 2 (stopword_filter rdd)
     <> [("sat", 2); ("cat", 1)].
Proof.
  intro rdd. split; [|split].
  - apply (Permutation_rev [("dog", 1); ("sat", 2); ("cat", 1); ("the", 2)]).
  - reflexivity.
  - vm_compute. discriminate.
Qed.

(** ** The scenarios of the specification *)

Example bigrams_abc :
  bigrams_of ["a"; "b"; "c"] = [("a b", 1); ("b c", 1)].
Proof. reflexivity. Qed.

Example bigrams_two_lines :
  bigram_occurrences ["a b"; "c d"] = [("a b", 1); ("c d", 1)].
Proof. reflexivity. Qed.

Example share_at_two :
  exists df total share,
    df_from_counts (rdd_word_counts [corpus]) = Ok (df, total)
    /\ total = Some 6
    /\ filter_count_ge df 2 = Ok (retained df 2, share)
    /\ map (fun r => (Row.word r, Row.count r)) (retained df 2)
       = [("the", 2); ("sat", 2)]
    /\ (share == 4 # 6)%Q.
Proof.
  eexists; eexists; eexists. repeat split.
Qed.

(** ** More on the tokenizer *)

Section TokenShape.
Import Char WordRe.

Lemma match_run_class (s : string) :
  forall prev m r,
    match_run prev s = Some (m, r) -> string_forallb in_class m = true.
Proof.
  induction s as [|c s IH]; intros prev m r; cbn [match_run head].
  - destruct (boundary _ _); [|discriminate].
    intro H; inversion H; reflexivity.
  - destruct (in_class c) eqn:Hc.
    + destruct (match_run c s) as [[m' r']|] eqn:E.
      * intro H; inversion H; subst. cbn [string_forallb].
        now rewrite Hc, (IH c m' r E).
      * destruct (boundary _ _); [|discriminate].
        intro H; inversion H; reflexivity.
    + destruct (boundary _ _); [|discriminate].
      intro H; inversion H; reflexivity.
Qed.

Lemma match_at_class (prev : option ascii) (s m r : string) :
  match_at prev s = Some (m, r) ->
  m <> EmptyString /\ string_forallb in_class m = true.
Proof.
  destruct s as [|c s]; cbn [match_at]; [discriminate|].
  destruct (boundary prev (Some c)); cbn [andb]; [|discriminate].
  destruct (in_class c) eqn:Hc; [|discriminate].
  destruct (match_run c s) as [[m' r']|] eqn:E; [|discriminate].
  intro H; inversion H; subst. split; [discriminate|].
  cbn [string_forallb]. now rewrite Hc, (match_run_class s c m' r E).
Qed.

Lemma findall_fuel_class (n : nat) :
  forall prev s,
    Forall (fun m => m <> EmptyString /\ string_forallb in_class m = true)
           (findall_fuel n prev s).
Proof.
  induction n as [|n IH]; intros prev s; cbn [findall_fuel]; [constructor|].
  destruct s as [|c s]; [constructor|].
  destruct (match_at prev (String c s)) as [[m r]|] eqn:E.
  - constructor; [exact (match_at_class _ _ _ _ E) | apply IH].
  - apply IH.
Qed.

Lemma findall_fuel_length (n : nat) :
  forall prev s,
    (total_length (findall_fuel n prev s) <= String.length s)%nat.
Proof.
  induction n as [|n IH]; intros prev s; cbn [findall_fuel].
  - cbn. lia.
  - destruct s as [|c s]; [cbn; lia|].
    destruct (match_at prev (String c s)) as [[m r]|] eqn:E.
    + apply match_at_shorter in E. destruct E as [E _]. rewrite E.
      cbn [total_length fold_right]. fold (total_length
        (findall_fuel n (Some (last_char c m)) r)).
      rewrite length_append.
      specialize (IH (Some (last_char c m)) r). lia.
    + specialize (IH (Some c) s). cbn [String.length]. lia.
Qed.

Lemma lower_of_class (c : ascii) :
  in_class c = true -> lower_class (lower c) = true.
Proof.
  destruct c as [b0 b1 b2 b3 b4 b5 b6 b7].
  destruct b0, b1, b2, b3, b4, b5, b6, b7; vm_compute;
    intro H; (reflexivity || discriminate H).
Qed.

Lemma lower_fixes_lower_class (c : ascii) :
  lower_class c = true -> lower c = c.
Proof.
  destruct c as [b0 b1 b2 b3 b4 b5 b6 b7].
  destruct b0, b1, b2, b3, b4, b5, b6, b7; vm_compute;
    intro H; (reflexivity || discriminate H).
Qed.

Lemma str_lower_length (s : string) :
  String.length (str_lower s) = String.length s.
Proof. induction s as [|c s IH]; cbn; [reflexivity | now rewrite IH]. Qed.

Lemma str_lower_of_class (m : string) :
  string_forallb in_class m = true ->
  string_forallb lower_class (str_lower m) = true.
Proof.
  induction m as [|c m IH]; [reflexivity|]. cbn [string_forallb str_lower].
  intro H. andb_split H Hc Hm. now rewrite (lower_of_class c Hc), IH.
Qed.

Lemma str_lower_fixes (w : string) :
  string_forallb lower_class w = true -> str_lower w = w.
Proof.
  induction w as [|c w IH]; [reflexivity|]. cbn [string_forallb str_lower].
  intro H. andb_split H Hc Hw. now rewrite (lower_fixes_lower_class c Hc), IH.
Qed.

Lemma total_length_lower (ms : list string) :
  total_length (map str_lower ms) = total_length ms.
Proof.
  induction ms as [|m ms IH]; [reflexivity|].
  cbn [map total_length fold_right]. fold (total_length (map str_lower ms)).
  fold (total_length ms). now rewrite IH, str_lower_length.
Qed.

(** X1: whatever the text, every token is non-empty and made of digits,
    lower-case ASCII letters and apostrophes only, so that lower-casing a
    token again changes nothing; and the tokens together are no longer
    than the text. *)
Theorem tokens_well_formed (text : string) :
  Forall (fun w => w <> EmptyString
                   /\ string_forallb lower_class w = true
                   /\ str_lower w = w)
         (tokenize text)
  /\ (total_length (tokenize text) <= String.length text)%nat.
Proof.
  unfold tokenize, findall. split.
  - apply Forall_forall. intros w Hin. apply in_map_iff in Hin.
    destruct Hin as [m [<- Hin]].
    pose proof (findall_fuel_class (String.length text) None text) as Hall.
    rewrite Forall_forall in Hall. destruct (Hall m Hin) as [Hne Hcl].
    pose proof (str_lower_of_class m Hcl) as Hlow.
    repeat split.
    + destruct m; [congruence | discriminate].
    + exact Hlow.
    + now apply str_lower_fixes.
  - rewrite total_length_lower. apply findall_fuel_length.
Qed.

Lemma lower_word_char (c : ascii) : is_word_char (lower c) = is_word_char c.
Proof.
  destruct c as [b0 b1 b2 b3 b4 b5 b6 b7].
  destruct b0, b1, b2, b3, b4, b5, b6, b7; reflexivity.
Qed.

Lemma lower_in_class (c : ascii) : in_class (lower c) = in_class c.
Proof.
  destruct c as [b0 b1 b2 b3 b4 b5 b6 b7].
  destruct b0, b1, b2, b3, b4, b5, b6, b7; reflexivity.
Qed.

Lemma lower_idempotent (c : ascii) : lower (lower c) = lower c.
Proof.
  destruct c as [b0 b1 b2 b3 b4 b5 b6 b7].
  destruct b0, b1, b2, b3, b4, b5, b6, b7; reflexivity.
Qed.

Lemma boundary_lower (prev next : option ascii) :
  boundary (option_map lower prev) (option_map lower next)
  = boundary prev next.
Proof.
  unfold boundary. destruct prev, next; cbn [option_map is_word];
    now rewrite ?lower_word_char.
Qed.

Lemma head_lower (s : string) : head (str_lower s) = option_map lower (head s).
Proof. now destruct s. Qed.

Lemma match_run_lower (s : string) :
  forall prev,
    match_run (lower prev) (str_lower s)
    = option_map lower_pair (match_run prev s).
Proof.
  induction s as [|c s IH]; intro prev.
  - cbn [str_lower match_run head].
    rewrite (boundary_lower (Some prev) None
             : boundary (Some (lower prev)) None = _).
    now destruct (boundary _ _).
  - cbn [str_lower match_run head]. rewrite lower_in_class, IH.
    rewrite (boundary_lower (Some prev) (Some c)
             : boundary (Some (lower prev)) (Some (lower c)) = _).
    destruct (in_class c).
    + destruct (match_run c s) as [[m r]|]; [reflexivity|].
      cbn [option_map]. now destruct (boundary _ _).
    + now destruct (boundary _ _).
Qed.

Lemma match_at_lower (prev : option ascii) (s : string) :
  match_at (option_map lower prev) (str_lower s)
  = option_map lower_pair (match_at prev s).
Proof.
  destruct s as [|c s]; [reflexivity|]. cbn [str_lower match_at].
  change (Some (lower c)) with (option_map lower (Some c)).
  rewrite boundary_lower, lower_in_class, match_run_lower.
  destruct (boundary prev (Some c) && in_class c); [|reflexivity].
  now destruct (match_run c s) as [[m r]|].
Qed.

Lemma last_char_lower (m : string) :
  forall c, last_char (lower c) (str_lower m) = lower (last_char c m).
Proof. induction m as [|d m IH]; intro c; [reflexivity | apply IH]. Qed.

Lemma findall_fuel_lower (n : nat) :
  forall prev s,
    findall_fuel n (option_map lower prev) (str_lower s)
    = map str_lower (findall_fuel n prev s).
Proof.
  induction n as [|n IH]; intros prev s; [reflexivity|].
  destruct s as [|c s]; [reflexivity|].
  cbn [findall_fuel].
  change (String (lower c) (str_lower s)) with (str_lower (String c s)).
  cbn [findall_fuel str_lower].
  change (String (lower c) (str_lower s)) with (str_lower (String c s)).
  rewrite match_at_lower.
  destruct (match_at prev (String c s)) as [[m r]|]; cbn [option_map map].
  - unfold lower_pair at 1. cbn [fst snd]. f_equal.
    rewrite last_char_lower.
    exact (IH (Some (last_char c m)) r).
  - exact (IH (Some c) s).
Qed.

Lemma str_lower_idempotent (s : string) : str_lower (str_lower s) = str_lower s.
Proof.
  induction s as [|c s IH]; [reflexivity|]. cbn [str_lower].
  now rewrite lower_idempotent, IH.
Qed.

(** X2: on a text of code points below 256, which is what a [string]
    holds, the tokens do not depend on the case of the text:
    [tokenize(text.lower())] is [tokenize(text)].  Beyond 255 it is not
    so: the Kelvin sign is no character of the class and its lower case
    is [k]. *)
Theorem tokenize_ignores_case (text : string) :
  tokenize (str_lower text) = tokenize text.
Proof.
  unfold tokenize, findall. rewrite str_lower_length.
  change (@None ascii) with (option_map lower None).
  rewrite findall_fuel_lower, map_map.
  apply map_ext. intro m. apply str_lower_idempotent.
Qed.

End TokenShape.

Section TokenLines.
Import Char WordRe.
Variable sep : ascii.
Hypothesis sep_separates : is_separator sep = true.

Lemma sep_not_word : is_word_char sep = false.
Proof.
  unfold is_separator in sep_separates. andb_split sep_separates H1 H2.
  now apply negb_true_iff.
Qed.

Lemma sep_not_class : in_class sep = false.
Proof.
  unfold is_separator in sep_separates. andb_split sep_separates H1 H2.
  now apply negb_true_iff.
Qed.

(** A separator after the text is, to a match, the end of the text. *)
Lemma match_run_before_sep (a b : string) :
  forall prev,
    match_run prev (a ++ String sep b) = extend sep b (match_run prev a).
Proof.
  induction a as [|c a IH]; intro prev.
  - cbn [append match_run head]. rewrite sep_not_class.
    unfold boundary. cbn [is_word]. rewrite sep_not_word.
    now destruct (xorb (is_word_char prev) false).
  - cbn [append match_run head]. rewrite IH.
    destruct (in_class c).
    + destruct (match_run c a) as [[m r]|]; [reflexivity|].
      cbn [extend]. now destruct (boundary _ _).
    + now destruct (boundary _ _).
Qed.

Lemma match_at_before_sep (prev : option ascii) (c : ascii) (a b : string) :
  match_at prev (String c a ++ String sep b)
  = extend sep b (match_at prev (String c a)).
Proof.
  cbn [append match_at]. rewrite match_run_before_sep.
  destruct (boundary prev (Some c) && in_class c); [|reflexivity].
  now destruct (match_run c a) as [[m r]|].
Qed.

Lemma match_at_prev (p p' : option ascii) (s : string) :
  is_word p = is_word p' -> match_at p s = match_at p' s.
Proof.
  intro H. destruct s as [|c s]; [reflexivity|].
  cbn [match_at]. unfold boundary. now rewrite H.
Qed.

Lemma scan_prev (p p' : option ascii) (s : string) :
  is_word p = is_word p' -> scan p s = scan p' s.
Proof.
  intro H. destruct s as [|c s]; [reflexivity|].
  now rewrite !scan_cons, (match_at_prev p p' _ H).
Qed.

Lemma scan_before_sep (n : nat) (b : string) :
  forall a prev,
    (String.length a <= n)%nat ->
    scan prev (a ++ String sep b) = (scan prev a ++ scan None b)%list.
Proof.
  induction n as [|n IH]; intros a prev Hlen.
  - destruct a; [|cbn in Hlen; lia]. cbn [append]. rewrite scan_cons.
    cbn [match_at]. rewrite sep_not_class, andb_false_r.
    apply scan_prev. cbn [is_word]. apply sep_not_word.
  - destruct a as [|c a].
    + cbn [append]. rewrite scan_cons.
      cbn [match_at]. rewrite sep_not_class, andb_false_r.
      apply scan_prev. cbn [is_word]. apply sep_not_word.
    + cbn [String.length] in Hlen.
      rewrite (scan_cons prev c a).
      change (String c a ++ String sep b)
        with (String c (a ++ String sep b)).
      rewrite scan_cons.
      change (String c (a ++ String sep b))
        with (String c a ++ String sep b).
      rewrite match_at_before_sep.
      destruct (match_at prev (String c a)) as [[m r]|] eqn:E; cbn [extend].
      * apply match_at_shorter in E. destruct E as [_ Hlt].
        cbn [String.length] in Hlt. cbn [app]. f_equal.
        apply IH. lia.
      * apply IH. lia.
Qed.

Lemma tokenize_before_sep (a b : string) :
  tokenize (a ++ String sep b) = (tokenize a ++ tokenize b)%list.
Proof.
  unfold tokenize, findall. fold (scan None (a ++ String sep b)).
  fold (scan None a). fold (scan None b).
  rewrite (scan_before_sep (String.length a) b a None (le_n _)).
  apply map_app.
Qed.

End TokenLines.

(** X3: a character that is neither of [\w] nor of the class (a space, a
    line break, a full stop) cuts the text in two for the tokenizer: the
    tokens of [a + sep + b] are those of [a] followed by those of [b]. *)
Theorem tokenize_splits_at_separator (sep : ascii) (a b : string) :
  is_separator sep = true ->
  tokenize (a ++ String sep b) = (tokenize a ++ tokenize b)%list.
Proof. intro H. now apply tokenize_before_sep. Qed.

Lemma tokenize_splits_at_separator_witness :
  is_separator " " = true
  /\ tokenize ("it's" ++ String " " "a_b c")
     = (tokenize "it's" ++ tokenize "a_b c")%list.
Proof.
  split; [reflexivity|].
  apply (tokenize_splits_at_separator " " "it's" "a_b c"). reflexivity.
Defined.

Lemma tokenize_join_lines (lines : list string) :
  tokenize (join_lines lines) = flat_map tokenize lines.
Proof.
  unfold join_lines. induction lines as [|l lines IH]; [reflexivity|].
  destruct lines as [|l' lines].
  - cbn [String.concat flat_map]. now rewrite app_nil_r.
  - change (String.concat (String newline "") (l :: l' :: lines))
      with (l ++ String newline
              (String.concat (String newline "") (l' :: lines))).
    rewrite tokenize_before_sep by reflexivity.
    rewrite IH. reflexivity.
Qed.

Lemma tokens_of_joined_files (files : list (string * list string)) :
  flat_map (fun kv => tokenize (snd kv))
           (map (fun f => (fst f, join_lines (snd f))) files)
  = flat_map tokenize (flat_map snd files).
Proof.
  induction files as [|[p ls] files IH]; [reflexivity|].
  cbn [map flat_map fst snd]. rewrite IH, tokenize_join_lines.
  now rewrite flat_map_app.
Qed.

(** X4: counting by line and counting by file agree.  The global counts
    of a folder whose files are lines joined by line breaks are the word
    counts of all those lines, read as one corpus, up to the order of
    the pairs, which is the engine's in each of the two. *)
Theorem global_counts_are_line_counts
        (files : list (string * list string))
        (global line_counts : list (string * Z)) :
  Permutation global
    (snd (per_file_and_global_counts
            (map (fun f => (fst f, join_lines (snd f))) files))) ->
  Permutation line_counts (rdd_word_counts (flat_map snd files)) ->
  Permutation global line_counts.
Proof.
  intros Hg Hl. rewrite Hg, Hl.
  cbn [per_file_and_global_counts snd].
  rewrite tokens_of_joined_files. reflexivity.
Qed.

Lemma global_counts_are_line_counts_witness :
  let files := [("file:/d/x.txt", ["a b"; "a"])] in
  let global := [("b", 1); ("a", 2)] in
  let line_counts := [("a", 2); ("b", 1)] in
  Permutation global
    (snd (per_file_and_global_counts
            (map (fun f => (fst f, join_lines (snd f))) files)))
  /\ Permutation line_counts (rdd_word_counts (flat_map snd files))
  /\ Permutation global line_counts.
Proof.
  intros files global line_counts.
  assert (Hg : Permutation global
                 (snd (per_file_and_global_counts
                         (map (fun f => (fst f, join_lines (snd f)))
                              files))))
    by apply perm_swap.
  assert (Hl : Permutation line_counts
                           (rdd_word_counts (flat_map snd files)))
    by apply Permutation_refl.
  split; [exact Hg|]. split; [exact Hl|].
  exact (global_counts_are_line_counts files global line_counts Hg Hl).
Defined.

(** ** More on the word counts *)

Lemma keys_reduceByKey {V : Type} (f : V -> V -> V)
      (l : list (string * V)) (k : string) :
  In k (map fst (RDD.reduceByKey f l)) <-> In k (map fst l).
Proof.
  unfold RDD.reduceByKey.
  assert (H : forall acc,
    In k (map fst (fold_left
      (fun a kv => RDD.merge_value f (fst kv) (snd kv) a) l acc))
    <-> In k (map fst acc) \/ In k (map fst l)).
  { induction l as [|[k' v] l IH]; intro acc; cbn [fold_left map fst snd].
    - cbn [In]. tauto.
    - rewrite IH, keys_merge_value.
      destruct (in_dec string_dec k' (map fst acc)) as [Hin|Hout].
      + cbn [In]. split; [tauto|].
        intros [H|[->|H]]; tauto.
      + rewrite in_app_iff. cbn [In]. tauto. }
  rewrite H. cbn [map In]. tauto.
Qed.

Lemma reduceByKey_In (l : list (string * Z)) (k : string) (v : Z) :
  In (k, v) (RDD.reduceByKey Z.add l)
  <-> In k (map fst l) /\ v = tally k l.
Proof.
  pose proof (NoDup_reduceByKey Z.add l) as Hnd. split.
  - intro Hin. split.
    + apply (keys_reduceByKey Z.add). apply in_map_iff.
      exists (k, v). now split.
    + rewrite <- get_reduceByKey. symmetry. now apply get_In.
  - intros [Hk ->]. apply (keys_reduceByKey Z.add) in Hk.
    apply in_map_iff in Hk. destruct Hk as [[k' v'] [Hk Hin]].
    cbn [fst] in Hk. subst k'.
    rewrite <- get_reduceByKey, (get_In _ k v' 0 Hnd Hin). exact Hin.
Qed.

Lemma tally_perm (t : string) (l l' : list (string * Z)) :
  Permutation l l' -> tally t l = tally t l'.
Proof.
  induction 1 as [|[k v] l l' H IH|[k v] [k' v'] l|l l' l'' H1 IH1 H2 IH2];
    cbn [tally]; lia.
Qed.

Lemma NoDup_pairs {V : Type} (l : list (string * V)) :
  NoDup (map fst l) -> NoDup l.
Proof.
  induction l as [|x l IH]; cbn [map]; intro H; [constructor|].
  inversion H as [|? ? Hnotin Hnd]; subst. constructor.
  - intro Hin. apply Hnotin. now apply in_map.
  - now apply IH.
Qed.

Lemma reduceByKey_perm (l l' : list (string * Z)) :
  Permutation l l' ->
  Permutation (RDD.reduceByKey Z.add l) (RDD.reduceByKey Z.add l').
Proof.
  intro Hperm. apply NoDup_Permutation.
  - apply NoDup_pairs, NoDup_reduceByKey.
  - apply NoDup_pairs, NoDup_reduceByKey.
  - intros [k v]. rewrite !reduceByKey_In, (tally_perm k l l' Hperm).
    split; intros [Hk Hv]; (split; [|exact Hv]).
    + eapply Permutation_in; [apply Permutation_map, Hperm | exact Hk].
    + eapply Permutation_in;
        [apply Permutation_map, Permutation_sym, Hperm | exact Hk].
Qed.

Lemma flat_map_perm {A B : Type} (f : A -> list B) (l l' : list A) :
  Permutation l l' -> Permutation (flat_map f l) (flat_map f l').
Proof.
  induction 1 as [|x l l' H IH|x y l|l l' l'' H1 IH1 H2 IH2];
    cbn [flat_map].
  - constructor.
  - now apply Permutation_app_head.
  - rewrite !app_assoc. apply Permutation_app_tail, Permutation_app_comm.
  - now transitivity (flat_map f l').
Qed.

(** X5: the word counts hold one pair per distinct token: the keys are
    the tokens that occur, no key twice, and each count is the number of
    occurrences of its token, hence at least 1. *)
Theorem word_counts_per_token (lines : list string) :
  let tokens := flat_map tokenize lines in
  NoDup (map fst (rdd_word_counts lines))
  /\ (forall w, In w (map fst (rdd_word_counts lines)) <-> In w tokens)
  /\ (forall w c, In (w, c) (rdd_word_counts lines) ->
                  c = Z.of_nat (count_occ string_dec tokens w) /\ 1 <= c).
Proof.
  intro tokens. unfold rdd_word_counts. fold tokens. split; [|split].
  - apply NoDup_reduceByKey.
  - intro w. rewrite keys_reduceByKey, map_map. cbn [fst].
    now rewrite map_id.
  - intros w c Hin. apply reduceByKey_In in Hin. destruct Hin as [Hk ->].
    rewrite tally_ones. split; [reflexivity|].
    rewrite map_map in Hk. cbn [fst] in Hk. rewrite map_id in Hk.
    apply (count_occ_In string_dec) in Hk. lia.
Qed.

(** X6: the counts do not depend on the order of the records: the lines
    of the corpus in another order give the same word counts and the same
    bigram counts, up to the order of the pairs. *)
Theorem counts_ignore_line_order (lines lines' : list string) :
  Permutation lines lines' ->
  Permutation (rdd_word_counts lines) (rdd_word_counts lines')
  /\ Permutation (bigram_counts lines) (bigram_counts lines').
Proof.
  intro Hperm. split.
  - unfold rdd_word_counts. apply reduceByKey_perm, Permutation_map.
    now apply flat_map_perm.
  - unfold bigram_counts. apply reduceByKey_perm.
    rewrite !bigram_occurrences_per_line. now apply flat_map_perm.
Qed.

Lemma counts_ignore_line_order_witness :
  Permutation ["b a"; "a c"] ["a c"; "b a"]
  /\ Permutation (rdd_word_counts ["b a"; "a c"])
                 (rdd_word_counts ["a c"; "b a"])
  /\ Permutation (bigram_counts ["b a"; "a c"])
                 (bigram_counts ["a c"; "b a"]).
Proof.
  assert (H : Permutation ["b a"; "a c"] ["a c"; "b a"])
    by apply perm_swap.
  split; [exact H | exact (counts_ignore_line_order _ _ H)].
Defined.

(** X7: counting is additive: the count of a word over two corpora put
    together is the sum of its counts over each, 0 standing for a word
    that does not occur. *)
Theorem word_counts_additive (lines1 lines2 : list string) (w : string) :
  Dict.get (rdd_word_counts (lines1 ++ lines2)) w 0
  = Dict.get (rdd_word_counts lines1) w 0
    + Dict.get (rdd_word_counts lines2) w 0.
Proof.
  unfold rdd_word_counts.
  rewrite !get_reduceByKey, flat_map_app, map_app. apply tally_app.
Qed.

(** ** Selections by order *)

Section Top.
Context {A : Type} (key : A -> Z).

Lemma In_firstn (x : A) (n : nat) (l : list A) :
  In x (firstn n l) -> In x l.
Proof.
  intro H. rewrite <- (firstn_skipn n l). apply in_or_app. now left.
Qed.

Lemma In_skipn (x : A) (n : nat) (l : list A) :
  In x (skipn n l) -> In x l.
Proof.
  intro H. rewrite <- (firstn_skipn n l). apply in_or_app. now right.
Qed.

Lemma sorted_firstn (l : list A) :
  StronglySorted (fun a b => key a <= key b) l ->
  forall n, StronglySorted (fun a b => key a <= key b) (firstn n l).
Proof.
  induction 1 as [|x l Hl IH Hx]; intro n.
  - rewrite firstn_nil. constructor.
  - destruct n as [|n]; cbn [firstn]; constructor; [apply IH|].
    rewrite Forall_forall in Hx |- *. intros y Hy. apply Hx.
    revert Hy. apply In_firstn.
Qed.

Lemma sorted_split (l : list A) :
  StronglySorted (fun a b => key a <= key b) l ->
  forall n x y, In x (firstn n l) -> In y (skipn n l) -> key x <= key y.
Proof.
  induction 1 as [|z l Hl IH Hz]; intros n x y Hx Hy.
  - rewrite firstn_nil in Hx. contradiction.
  - destruct n as [|n]; cbn [firstn skipn] in Hx, Hy; [contradiction|].
    destruct Hx as [<-|Hx].
    + rewrite Forall_forall in Hz. apply Hz.
      revert Hy. apply In_skipn.
    + exact (IH n x y Hx Hy).
Qed.

Lemma takeOrdered_is_top (n : nat) (l : list A) :
  is_top key n l (RDD.takeOrdered key n l).
Proof.
  unfold is_top, RDD.takeOrdered. split; [|split].
  - rewrite length_firstn.
    now rewrite (Permutation_length (sorted_perm key l)).
  - apply sorted_firstn, sorted_ordered.
  - exists (skipn n (RDD.sorted key l)). split.
    + rewrite firstn_skipn. apply sorted_perm.
    + apply sorted_split, sorted_ordered.
Qed.

Lemma is_top_incl (n : nat) (l top : list A) :
  is_top key n l top -> incl top l.
Proof.
  intros [_ [_ [rest [Hperm _]]]] x Hx.
  eapply Permutation_in; [exact Hperm|]. apply in_or_app. now left.
Qed.

End Top.

Lemma sum_map_perm {A : Type} (f : A -> Z) (l l' : list A) :
  Permutation l l' -> RDD.sum (map f l) = RDD.sum (map f l').
Proof. intro H. apply sum_perm. now apply Permutation_map. Qed.

(** X8: [compare_stopwords] returns the sum of all counts, the ten
    entries of largest count before and after the stopwords are removed
    (all entries when there are fewer), by decreasing count, and no
    stopword is among the second ten. *)
Theorem compare_stopwords_tops (counts_rdd : list (string * Z)) :
  let '(total, top_before, top_after, filtered) :=
    compare_stopwords counts_rdd in
  total = Zsum (map snd counts_rdd)
  /\ is_top neg_count 10 counts_rdd top_before
  /\ is_top neg_count 10 filtered top_after
  /\ Forall (fun x => ~ In (fst x) STOPWORDS) top_after.
Proof.
  cbn [compare_stopwords]. split; [apply sum_Zsum|].
  split; [apply takeOrdered_is_top|]. split; [apply takeOrdered_is_top|].
  apply Forall_forall. intros x Hx.
  apply (is_top_incl _ _ _ _ (takeOrdered_is_top neg_count 10 _)) in Hx.
  now apply stopword_filter_In in Hx.
Qed.

(** ** More on the statistics *)

Lemma df_from_counts_ok (counts_rdd : list (string * Z)) :
  counts_rdd <> [] ->
  let total := RDD.sum (map snd counts_rdd) in
  df_from_counts counts_rdd
  = Ok (map (fun x => Row.mk (fst x) (snd x) (len (fst x))
                             (sql_div (snd x) total))
            counts_rdd,
        Some total).
Proof.
  intros Hne total. destruct counts_rdd as [|x l]; [congruence|].
  unfold df_from_counts. rewrite !map_map. cbn [fst snd sql_sum map].
  reflexivity.
Qed.

Lemma df_from_counts_empty : df_from_counts [] = Raise ValueError.
Proof. reflexivity. Qed.

Lemma counts_sum_positive (counts_rdd : list (string * Z)) :
  counts_rdd <> [] -> Forall (fun x => 1 <= snd x) counts_rdd ->
  0 < RDD.sum (map snd counts_rdd).
Proof.
  intros Hne H. induction H as [|x l Hx Hl IH]; [congruence|].
  cbn [map]. rewrite sum_cons. destruct l as [|y l].
  - cbn. lia.
  - assert (0 < RDD.sum (map snd (y :: l))) by (apply IH; discriminate).
    lia.
Qed.

(** X9: [df_from_counts] raises [ValueError] on an empty RDD.  On any
    other RDD of positive counts whose sum fits a long it returns, in
    order, one row per pair, with the word, its count and the length of
    the word, and as total the sum of the counts, which is positive. *)
Theorem df_from_counts_returns (counts_rdd : list (string * Z)) :
  counts_rdd <> [] ->
  Forall (fun x => 1 <= snd x) counts_rdd ->
  RDD.sum (map snd counts_rdd) <= long_max ->
  df_from_counts [] = Raise ValueError
  /\ exists df,
      df_from_counts counts_rdd
      = Ok (df, Some (RDD.sum (map snd counts_rdd)))
      /\ map (fun r => (Row.word r, Row.count r, Row.length r)) df
         = map (fun x => (fst x, snd x, len (fst x))) counts_rdd
      /\ 0 < RDD.sum (map snd counts_rdd).
Proof.
  intros Hne Hpos _. split; [reflexivity|].
  eexists. split; [apply (df_from_counts_ok counts_rdd Hne)|].
  split; [|now apply counts_sum_positive].
  rewrite map_map. reflexivity.
Qed.

Lemma df_from_counts_returns_witness :
  let counts_rdd : list (string * Z) := [("the", 2); ("cat", 1)] in
  counts_rdd <> []
  /\ Forall (fun x => 1 <= snd x) counts_rdd
  /\ RDD.sum (map snd counts_rdd) <= long_max
  /\ exists df, df_from_counts counts_rdd = Ok (df, Some 3).
Proof.
  intro counts_rdd.
  assert (Hne : counts_rdd <> []) by discriminate.
  assert (Hpos : Forall (fun x => 1 <= snd x) counts_rdd).
  { repeat constructor; cbn; lia. }
  assert (Hfit : RDD.sum (map snd counts_rdd) <= long_max)
    by (vm_compute; discriminate).
  split; [exact Hne|]. split; [exact Hpos|]. split; [exact Hfit|].
  destruct (df_from_counts_returns _ Hne Hpos Hfit) as [_ [df [E _]]].
  exists df. exact E.
Defined.




Lemma retained_retained (df : list Row.t) (n1 n2 : Z) :
  n1 <= n2 -> retained (retained df n1) n2 = retained df n2.
Proof.
  intro H. unfold retained. induction df as [|r df IH]; [reflexivity|].
  cbn [filter]. destruct (Z.leb_spec n1 (Row.count r)) as [H1|H1].
  - cbn [filter]. now rewrite IH.
  - rewrite IH. destruct (Z.leb_spec n2 (Row.count r)); [lia | reflexivity].
Qed.

Lemma retained_positive (df : list Row.t) (n : Z) :
  Forall (fun r => 1 <= Row.count r) df ->
  Forall (fun r => 1 <= Row.count r) (retained df n).
Proof.
  intro H. apply Forall_forall. intros r Hin.
  apply filter_In in Hin. rewrite Forall_forall in H. now apply H.
Qed.

(** X11: over positive counts whose sum fits a long, when some count
    reaches the threshold, [filter_count_ge] keeps exactly the rows
    whose count reaches it and the share is defined,
    above 0 and at most 1, and 1 when every count reaches the threshold;
    a lower threshold keeps every row the higher one keeps and gives a
    share at least as large. *)
Theorem share_monotone (df : list Row.t) (n1 n2 : Z) :
  Forall (fun r => 1 <= Row.count r) df ->
  RDD.sum (map Row.count df) <= long_max ->
  n1 <= n2 ->
  (exists r, In r df /\ n2 <= Row.count r) ->
  exists s1 s2,
    filter_count_ge df n1 = Ok (retained df n1, s1)
    /\ filter_count_ge df n2 = Ok (retained df n2, s2)
    /\ (forall r, In r (retained df n2) <-> In r df /\ n2 <= Row.count r)
    /\ incl (retained df n2) (retained df n1)
    /\ (0 < s2)%Q /\ (s2 <= s1)%Q /\ (s1 <= 1)%Q
    /\ ((forall r, In r df -> n2 <= Row.count r) -> (s2 == 1)%Q).
Proof.
  intros Hpos _ Hle [r [Hin Hr]].
  assert (H1 : exists r, In r df /\ n1 <= Row.count r)
    by (exists r; split; [exact Hin | lia]).
  destruct (filter_count_ge_share df n1 Hpos H1)
    as [s1 [E1 [D1 [_ [Hs1 _]]]]].
  destruct (filter_count_ge_share df n2 Hpos (ex_intro _ r (conj Hin Hr)))
    as [s2 [E2 [D2 [_ [_ Hall]]]]].
  exists s1, s2. split; [exact E1|]. split; [exact E2|].
  assert (Hne : df <> []) by (intro E; subst; contradiction).
  pose proof (sum_positive df Hpos Hne) as Htot.
  assert (Hq : (0 < inject_Z (RDD.sum (map Row.count df)))%Q).
  { change 0%Q with (inject_Z 0). now rewrite <- Zlt_Qlt. }
  assert (Hin2 : In r (retained df n2)).
  { apply filter_In. split; [exact Hin | now apply Z.leb_le]. }
  split; [|split; [|split; [|split; [|split]]]].
  - intro x. unfold retained. rewrite filter_In, Z.leb_le. tauto.
  - intros x Hx. apply filter_In in Hx. destruct Hx as [Hx Hx2].
    apply filter_In. split; [exact Hx|]. apply Z.leb_le in Hx2.
    apply Z.leb_le. lia.
  - rewrite D2. apply Qlt_shift_div_l; [exact Hq|]. rewrite Qmult_0_l.
    change 0%Q with (inject_Z 0). rewrite <- Zlt_Qlt.
    apply sum_positive; [now apply retained_positive|].
    intro E. rewrite E in Hin2. contradiction.
  - rewrite D1, D2. unfold Qdiv. apply Qmult_le_compat_r.
    + rewrite <- Zle_Qle. rewrite <- (retained_retained df n1 n2 Hle).
      apply sum_retained_bounds. now apply retained_positive.
    + apply Qlt_le_weak, Qinv_lt_0_compat, Hq.
  - exact Hs1.
  - exact Hall.
Qed.

Lemma share_monotone_witness :
  let df := [Row.mk "the" 2 3 None; Row.mk "cat" 1 3 None] in
  Forall (fun r => 1 <= Row.count r) df
  /\ RDD.sum (map Row.count df) <= long_max
  /\ 1 <= 2
  /\ (exists r, In r df /\ 2 <= Row.count r)
  /\ exists s1 s2,
      filter_count_ge df 1 = Ok (retained df 1, s1)
      /\ filter_count_ge df 2 = Ok (retained df 2, s2)
      /\ (s2 <= s1)%Q.
Proof.
  intro df.
  assert (Hpos : Forall (fun r => 1 <= Row.count r) df)
    by (repeat constructor; cbn; lia).
  assert (Hfit : RDD.sum (map Row.count df) <= long_max)
    by (vm_compute; discriminate).
  assert (Hle : 1 <= 2) by lia.
  assert (Hex : exists r, In r df /\ 2 <= Row.count r).
  { exists (Row.mk "the" 2 3 None). split; [now left | cbn; lia]. }
  split; [exact Hpos|]. split; [exact Hfit|]. split; [exact Hle|].
  split; [exact Hex|].
  destruct (share_monotone df 1 2 Hpos Hfit Hle Hex)
    as [s1 [s2 [E1 [E2 [_ [_ [_ [H _]]]]]]]].
  exists s1, s2. repeat split; assumption.
Defined.

Lemma is_top_perm {A : Type} (key : A -> Z) (n : nat) (l l' top : list A) :
  Permutation l' l -> is_top key n l' top -> is_top key n l top.
Proof.
  intros Hperm [Hlen [Hs [rest [Hp Hr]]]]. split; [|split].
  - now rewrite <- (Permutation_length Hperm).
  - exact Hs.
  - exists rest. split; [now transitivity l' | exact Hr].
Qed.

(** X12: whatever order Spark lists the rows of one length in,
    [ten_longest] returns the word, count and length of the ten rows of
    largest length (of all rows when there are fewer), by decreasing
    length: no row left out is longer than a row returned. *)
Theorem ten_longest_top (df df' : list Row.t) :
  Permutation df' df ->
  exists top,
    ten_longest df'
    = map (fun r => (Row.word r, Row.count r, Row.length r)) top
    /\ is_top neg_length 10 df top.
Proof.
  intro Hperm. exists (RDD.takeOrdered neg_length 10 df').
  split; [reflexivity|].
  apply (is_top_perm _ _ _ _ _ Hperm), takeOrdered_is_top.
Qed.

Lemma ten_longest_top_witness :
  let df := [Row.mk "cat" 1 3 None; Row.mk "elephants" 1 9 None] in
  let df' := [Row.mk "elephants" 1 9 None; Row.mk "cat" 1 3 None] in
  Permutation df' df
  /\ exists top,
      ten_longest df'
      = map (fun r => (Row.word r, Row.count r, Row.length r)) top
      /\ is_top neg_length 10 df top.
Proof.
  intros df df'.
  assert (H : Permutation df' df) by apply perm_swap.
  split; [exact H | exact (ten_longest_top df df' H)].
Defined.

(** ** More on the document store *)

Lemma mongo_store_counts_docs (counts_rdd : list (string * Z))
      (coll : list Doc.t) :
  mongo_store_counts counts_rdd coll
  = map (fun wc => Doc.mk (fst wc) (snd wc) (len (fst wc))) counts_rdd.
Proof. unfold mongo_store_counts. now destruct counts_rdd. Qed.

Lemma StronglySorted_weaken {A : Type} (R R' : A -> A -> Prop) (l : list A) :
  (forall a b, R a b -> R' a b) ->
  StronglySorted R l -> StronglySorted R' l.
Proof.
  intros Himp H. induction H as [|x l Hl IH Hx]; constructor; [exact IH|].
  revert Hx. apply Forall_impl. intro y. apply Himp.
Qed.

Lemma filter_all {A : Type} (f : A -> bool) (l : list A) :
  (forall x, In x l -> f x = true) -> filter f l = l.
Proof.
  intro H. induction l as [|x l IH]; [reflexivity|]. cbn [filter].
  rewrite (H x (or_introl eq_refl)). f_equal. apply IH.
  intros y Hy. apply H. now right.
Qed.

(** X13: storing replaces the collection: whatever it held, it then
    holds one document per pair, with the length of the word.  A query
    returns the stored documents whose length reaches the minimum, by
    decreasing count; with minimum 0 it returns every stored pair. *)
Theorem store_then_query (counts_rdd : list (string * Z))
        (coll : list Doc.t) (min_length : Z) :
  let stored := mongo_store_counts counts_rdd coll in
  let found := query_mongo_by_length stored min_length in
  stored = mongo_store_counts counts_rdd []
  /\ map (fun d => (Doc.word d, Doc.count d)) stored = counts_rdd
  /\ (forall d, In d found <-> In d stored /\ min_length <= Doc.length d)
  /\ Permutation found
                 (filter (fun d => min_length <=? Doc.length d) stored)
  /\ StronglySorted (fun a b => Doc.count b <= Doc.count a) found
  /\ Permutation
       (map (fun d => (Doc.word d, Doc.count d))
            (query_mongo_by_length stored 0))
       counts_rdd.
Proof.
  intros stored found. subst stored found.
  rewrite !mongo_store_counts_docs.
  assert (Hpairs : map (fun d => (Doc.word d, Doc.count d))
                     (map (fun wc => Doc.mk (fst wc) (snd wc) (len (fst wc)))
                          counts_rdd) = counts_rdd).
  { rewrite map_map. cbn [Doc.word Doc.count].
    rewrite <- (map_id counts_rdd) at 2. apply map_ext. now intros [w c]. }
  split; [reflexivity|]. split; [exact Hpairs|].
  unfold query_mongo_by_length. split; [|split; [|split]].
  - intro d. split.
    + intro H. apply (Permutation_in _ (sorted_perm neg_doc_count _)) in H.
      apply filter_In in H. now rewrite Z.leb_le in H.
    + intros [Hd Hl]. apply Z.leb_le in Hl.
      apply (Permutation_in _ (Permutation_sym (sorted_perm neg_doc_count _))).
      apply filter_In. now split.
  - apply sorted_perm.
  - eapply StronglySorted_weaken; [|apply sorted_ordered].
    unfold neg_doc_count. intros a b H. lia.
  - rewrite (sorted_perm neg_doc_count), filter_all; [now rewrite Hpairs|].
    intros d Hd. apply in_map_iff in Hd. destruct Hd as [wc [<- _]].
    apply Z.leb_le. cbn [Doc.length]. unfold len. lia.
Qed.

Lemma set_is_merge (d : Dict.t) (k : string) :
  Dict.set d k (Dict.get d k 0 + 1) = RDD.merge_value Z.add k 1 d.
Proof.
  induction d as [|[k' v'] d IH]; [reflexivity|].
  cbn [Dict.set Dict.get RDD.merge_value].
  destruct (String.eqb k k'); [reflexivity | now rewrite IH].
Qed.

Lemma Counter_is_reduceByKey (ws : list string) :
  Counter ws = RDD.reduceByKey Z.add (map (fun w => (w, 1)) ws).
Proof.
  unfold Counter, RDD.reduceByKey. generalize (@nil (string * Z)).
  induction ws as [|w ws IH]; intro acc; [reflexivity|].
  cbn [fold_left map fst snd]. now rewrite set_is_merge, IH.
Qed.

Lemma tally_get (l : list (string * Z)) (t : string) :
  NoDup (map fst l) -> tally t l = Dict.get l t 0.
Proof.
  induction l as [|[k v] l IH]; cbn [map fst tally Dict.get]; intro H;
    [reflexivity|].
  inversion H as [|? ? Hnotin Hnd]; subst.
  destruct (String.eqb_spec t k) as [->|Hne].
  - rewrite (IH Hnd), (get_notin l k 0 Hnotin). lia.
  - rewrite (IH Hnd). lia.
Qed.

Lemma Zsum_cons (x : Z) (l : list Z) : Zsum (x :: l) = x + Zsum l.
Proof. reflexivity. Qed.

Lemma file_docs_tally (fd : string * Dict.t) (w : string) :
  Zsum (map FDoc.count
            (filter (fun d => String.eqb w (FDoc.word d)) (file_docs fd)))
  = tally w (snd fd).
Proof.
  unfold file_docs. destruct fd as [f d]. cbn [fst snd].
  induction d as [|[k v] d IH]; [reflexivity|].
  cbn [map filter FDoc.word tally fst snd].
  destruct (String.eqb w k).
  - cbn [map FDoc.count]. rewrite Zsum_cons, IH. reflexivity.
  - rewrite IH. lia.
Qed.

Lemma Zsum_app (l1 l2 : list Z) : Zsum (l1 ++ l2) = Zsum l1 + Zsum l2.
Proof. rewrite <- !sum_Zsum. apply sum_app. Qed.

Lemma per_file_entries (files : list (string * string)) :
  fst (per_file_and_global_counts files)
  = map (fun kv => (basename (fst kv), Counter (tokenize (snd kv)))) files.
Proof. cbn [per_file_and_global_counts fst]. now rewrite map_map. Qed.

Lemma per_file_docs_sum (files : list (string * string)) (w : string) :
  Zsum (map FDoc.count
            (filter (fun d => String.eqb w (FDoc.word d))
                    (flat_map file_docs
                              (fst (per_file_and_global_counts files)))))
  = Zsum (map (fun kv => Z.of_nat (count_occ string_dec
                                     (tokenize (snd kv)) w)) files).
Proof.
  rewrite per_file_entries.
  induction files as [|kv files IH]; [reflexivity|].
  cbn [map flat_map]. rewrite filter_app, map_app, Zsum_app, IH, Zsum_cons.
  f_equal. rewrite file_docs_tally. cbn [snd].
  rewrite Counter_is_reduceByKey.
  rewrite (tally_get _ w (NoDup_reduceByKey Z.add _)).
  now rewrite get_reduceByKey, tally_ones.
Qed.

(** X14: after the fan-out is stored, the two collections hold what was
    computed and nothing of before, [words] is untouched, and for every
    word the counts of its per-file documents add up to the count of its
    global document (0 when it has none). *)
Theorem stored_fan_out_adds_up
        (files : list (string * string)) (db : Db.t) (w : string) :
  let per_file := fst (per_file_and_global_counts files) in
  let global_counts := snd (per_file_and_global_counts files) in
  let db' := fst (store_global_and_perfile_mongo per_file global_counts db) in
  Db.words db' = Db.words db
  /\ map (fun d => (GDoc.word d, GDoc.count d)) (Db.global_wordcount db')
     = global_counts
  /\ Db.per_file_wordcount db' = flat_map file_docs per_file
  /\ Zsum (map FDoc.count
               (filter (fun d => String.eqb w (FDoc.word d))
                       (Db.per_file_wordcount db')))
     = Dict.get global_counts w 0.
Proof.
  intros per_file global_counts db'.
  assert (Hdocs : Db.per_file_wordcount db' = flat_map file_docs per_file)
    by reflexivity.
  split; [reflexivity|]. split; [|split; [exact Hdocs|]].
  - subst db'. cbn [store_global_and_perfile_mongo fst Db.global_wordcount].
    rewrite map_map. cbn [GDoc.word GDoc.count].
    rewrite <- (map_id global_counts) at 2. apply map_ext. now intros [k v].
  - rewrite Hdocs. subst per_file global_counts.
    rewrite per_file_docs_sum.
    cbn [per_file_and_global_counts snd].
    now rewrite get_reduceByKey, tally_ones, count_occ_flat_map.
Qed.

(** ** More on bigrams and on the per-file entries *)

Lemma length_flat_map_sum {A B : Type} (f : A -> list B) (l : list A) :
  Z.of_nat (List.length (flat_map f l))
  = Zsum (map (fun x => Z.of_nat (List.length (f x))) l).
Proof.
  induction l as [|x l IH]; [reflexivity|].
  cbn [flat_map map]. rewrite length_app, Zsum_cons, <- IH. lia.
Qed.

(** X15: [top_bigrams] lists the [top_k] bigrams of largest count (all
    of them when there are fewer), by decreasing count; every bigram kept
    has a count of at least 1, and the counts add up to the number of
    adjacent pairs of the corpus: one less than its number of tokens for
    each line that has tokens. *)
Theorem top_bigrams_top (lines : list string) (top_k : nat) :
  is_top neg_count top_k (bigram_counts lines) (top_bigrams lines top_k)
  /\ (forall b c, In (b, c) (bigram_counts lines) -> 1 <= c)
  /\ RDD.sum (map snd (bigram_counts lines))
     = Zsum (map (fun l => Z.of_nat (List.length (tokenize l) - 1)) lines).
Proof.
  split; [apply takeOrdered_is_top|]. split.
  - intros b c Hin. unfold bigram_counts in Hin.
    apply reduceByKey_In in Hin. destruct Hin as [Hk ->].
    rewrite bigram_occurrences_ones, tally_ones.
    apply (count_occ_In string_dec) in Hk. lia.
  - unfold bigram_counts. rewrite sum_reduceByKey.
    rewrite bigram_occurrences_ones, sum_ones, length_map.
    rewrite bigram_occurrences_per_line, length_flat_map_sum.
    f_equal. apply map_ext. intro l. now rewrite bigrams_of_length.
Qed.

Lemma last_cons_nonempty {A : Type} (x d : A) (l : list A) :
  l <> [] -> last (x :: l) d = last l d.
Proof. destruct l; [congruence | reflexivity]. Qed.

Lemma split_shape (s : string) :
  (split "/" s = [s] /\ no_slash s = true)
  \/ (exists dir, s = dir ++ "/" ++ last (split "/" s) EmptyString).
Proof.
  induction s as [|c s IH]; [now left|].
  cbn [split no_slash]. destruct (Ascii.eqb_spec c "/") as [->|Hc].
  - right. rewrite last_cons_nonempty by apply split_nonempty.
    destruct IH as [[E _]|[dir E]].
    + exists EmptyString. now rewrite E.
    + exists (String "/" dir).
      change (String "/" dir ++ "/" ++ last (split "/" s) EmptyString)
        with (String "/" (dir ++ "/" ++ last (split "/" s) EmptyString)).
      now f_equal.
  - destruct IH as [[E Hn]|[dir E]].
    + left. rewrite E. cbn [negb andb]. now split.
    + right. destruct (split "/" s) as [|p ps] eqn:Es.
      { exfalso. exact (split_nonempty _ _ Es). }
      destruct ps as [|p' ps].
      * exfalso. cbn [last] in E.
        assert (Hs : split "/" (dir ++ String "/" p) = [p])
          by (cbn [append] in E; now rewrite <- E).
        rewrite split_join in Hs.
        destruct (split "/" dir) as [|x xs] eqn:Ed;
          [exact (split_nonempty _ _ Ed)|].
        destruct (split "/" p) as [|y ys] eqn:Ep;
          [exact (split_nonempty _ _ Ep)|].
        cbn [app] in Hs. inversion Hs as [[H1 H2]].
        destruct xs; discriminate.
      * exists (String c dir).
        change (last (String c p :: p' :: ps) EmptyString)
          with (last (p :: p' :: ps) EmptyString).
        change (String c dir ++ "/" ++ last (p :: p' :: ps) EmptyString)
          with (String c (dir ++ "/" ++ last (p :: p' :: ps) EmptyString)).
        now f_equal.
Qed.

Lemma split_pieces_no_slash (s : string) :
  Forall (fun p => no_slash p = true) (split "/" s).
Proof.
  induction s as [|c s IH]; [repeat constructor|].
  cbn [split]. destruct (Ascii.eqb c "/") eqn:Hc.
  - now constructor.
  - destruct (split "/" s) as [|p ps]; [repeat constructor; cbn;
      now rewrite Hc|].
    inversion IH; subst. constructor; [|assumption].
    cbn [no_slash]. now rewrite Hc.
Qed.

Lemma basename_no_slash (path : string) : no_slash (basename path) = true.
Proof.
  unfold basename. pose proof (split_pieces_no_slash path) as H.
  pose proof (split_nonempty "/" path) as Hne.
  induction H as [|p ps Hp Hps IH]; [congruence|].
  destruct ps as [|p' ps]; [exact Hp|].
  change (last (p :: p' :: ps) EmptyString)
    with (last (p' :: ps) EmptyString).
  apply IH. discriminate.
Qed.

(** X16: the per-file result has one entry per file, in order: the last
    segment of the path, which holds no [/] and is the path itself or
    what follows its last [/], with the word counts of the content read
    as a one-record corpus. *)
Theorem per_file_entry_shape (files : list (string * string)) :
  fst (per_file_and_global_counts files)
  = map (fun kv => (basename (fst kv), rdd_word_counts [snd kv])) files
  /\ Forall (fun e => no_slash (fst e) = true)
            (fst (per_file_and_global_counts files))
  /\ (forall path,
         path = basename path
         \/ exists dir, path = dir ++ "/" ++ basename path).
Proof.
  split; [|split].
  - rewrite per_file_entries. apply map_ext. intro kv. f_equal.
    unfold rdd_word_counts. cbn [flat_map]. rewrite app_nil_r.
    apply Counter_is_reduceByKey.
  - rewrite per_file_entries. apply Forall_forall. intros e He.
    apply in_map_iff in He. destruct He as [kv [<- _]].
    apply basename_no_slash.
  - intro path. unfold basename.
    destruct (split_shape path) as [[E _]|H]; [left | now right].
    now rewrite E.
Qed.

(** ** The run of [main] *)

Lemma bind_print {B : Type} (p : printed) (k : unit -> M B)
      (s : Db.t * list printed) :
  bind (print p) k s = k tt (fst s, (snd s ++ [p])%list).
Proof. reflexivity. Qed.

Lemma bind_lift_ok {A B : Type} (a : A) (k : A -> M B)
      (s : Db.t * list printed) :
  bind (lift (Ok a)) k s = k a s.
Proof. reflexivity. Qed.

Lemma bind_lift_raise {A B : Type} (e : exn) (k : A -> M B)
      (s : Db.t * list printed) :
  bind (lift (@Raise A e)) k s = (s, Raise e).
Proof. reflexivity. Qed.

Lemma print_rows_run (rows : list string) (s : Db.t * list printed) :
  print_rows rows s = ((fst s, (snd s ++ map TfidfRow rows)%list), Ok tt).
Proof.
  revert s; induction rows as [|r rows IH]; intros [db out].
  - cbn [print_rows ret map fst snd]. now rewrite app_nil_r.
  - cbn [print_rows]. rewrite bind_print, IH. cbn [fst snd map].
    now rewrite <- app_assoc.
Qed.

Lemma rdd_word_counts_eq (lines : list string) :
  rdd_word_counts lines
  = RDD.reduceByKey Z.add (map (fun w => (w, 1)) (flat_map tokenize lines)).
Proof. reflexivity. Qed.

Lemma word_counts_nonempty (lines : list string) :
  flat_map tokenize lines <> [] -> rdd_word_counts lines <> [].
Proof.
  intros Hne E. destruct (flat_map tokenize lines) as [|w ws] eqn:Et;
    [congruence|].
  assert (Hin : In w (map fst (rdd_word_counts lines))).
  { rewrite rdd_word_counts_eq, keys_reduceByKey, Et. now left. }
  rewrite E in Hin. contradiction.
Qed.

Lemma word_counts_count (lines : list string) (w : string) (c : Z) :
  In (w, c) (rdd_word_counts lines) ->
  c = Z.of_nat (count_occ string_dec (flat_map tokenize lines) w)
  /\ 1 <= c.
Proof.
  rewrite rdd_word_counts_eq. intro Hin. apply reduceByKey_In in Hin.
  destruct Hin as [Hk ->]. rewrite tally_ones. split; [reflexivity|].
  rewrite map_map in Hk. cbn [fst] in Hk. rewrite map_id in Hk.
  apply (count_occ_In string_dec) in Hk. lia.
Qed.

Lemma retained_none (df : list Row.t) (n : Z) :
  (forall r, In r df -> Row.count r < n) -> retained df n = [].
Proof.
  intro H. unfold retained. induction df as [|r df IH]; [reflexivity|].
  cbn [filter]. destruct (Z.leb_spec n (Row.count r)) as [Hle|Hlt].
  - specialize (H r (or_introl eq_refl)). lia.
  - apply IH. intros r' Hin. apply H. now right.
Qed.

Lemma filter_count_ge_none (df : list Row.t) (n : Z) :
  retained df n = [] -> filter_count_ge df n = Raise TypeError.
Proof.
  intro H. unfold filter_count_ge. fold (retained df n). now rewrite H.
Qed.

(** X17: on a corpus without a token, [main] prints two empty rankings
    and stops on the [ValueError] of [df_from_counts]; nothing is
    stored. *)
Theorem main_without_tokens (args : Args) (env : Env) (db : Db.t) :
  flat_map tokenize (corpus_lines env) = [] ->
  run_main args env db
  = ((db, [TopBefore []; TopAfter []]), Raise ValueError).
Proof.
  intro H. unfold run_main, main. rewrite rdd_word_counts_eq, H.
  reflexivity.
Qed.

Lemma main_without_tokens_witness :
  let env := mkEnv ["..."; ""] [] [] in
  flat_map tokenize (corpus_lines env) = []
  /\ run_main (mkArgs None None) env (Db.mk [] [] [])
     = ((Db.mk [] [] [], [TopBefore []; TopAfter []]), Raise ValueError).
Proof.
  intro env.
  assert (H : flat_map tokenize (corpus_lines env) = []) by reflexivity.
  split; [exact H | exact (main_without_tokens _ env _ H)].
Defined.

(** X18: on a corpus whose tokens are all different, [main] prints the
    rankings, the weighted average and the longest words, then stops on
    a [TypeError]: the threshold 2 retains no row and the share divides
    [None].  Nothing is stored and no bigram is printed. *)
Theorem main_without_repeats (args : Args) (env : Env) (db : Db.t) :
  flat_map tokenize (corpus_lines env) <> [] ->
  NoDup (flat_map tokenize (corpus_lines env)) ->
  exists top_before top_after avg rows,
    run_main args env db
    = ((db, [TopBefore top_before; TopAfter top_after;
             WeightedAvg avg; Longest rows]),
       Raise TypeError).
Proof.
  intros Hne Hnd.
  pose proof (word_counts_nonempty _ Hne) as Hc.
  set (counts := rdd_word_counts (corpus_lines env)) in *.
  set (total := RDD.sum (map snd counts)).
  assert (Hone : forall x, In x counts -> snd x = 1).
  { intros [w c] Hin. apply word_counts_count in Hin.
    destruct Hin as [-> Hge]. cbn [snd] in *.
    pose proof (proj1 (NoDup_count_occ string_dec _) Hnd w). lia. }
  assert (Htot : 0 < total).
  { apply counts_sum_positive; [exact Hc|]. apply Forall_forall.
    intros x Hx. rewrite (Hone x Hx). lia. }
  assert (Hret : retained (map (row_of total) counts) 2 = []).
  { apply retained_none. intros r Hr. apply in_map_iff in Hr.
    destruct Hr as [x [<- Hx]]. cbn [row_of Row.count].
    rewrite (Hone x Hx). lia. }
  unfold run_main, main. fold counts.
  cbn [compare_stopwords]. rewrite !bind_print.
  rewrite (df_from_counts_ok counts Hc). fold total. fold (row_of total).
  rewrite bind_lift_ok. rewrite weighted_avg_defined by lia.
  rewrite bind_lift_ok, !bind_print.
  rewrite (filter_count_ge_none _ 2 Hret), bind_lift_raise.
  cbn [fst snd app]. do 4 eexists. reflexivity.
Qed.

Lemma main_without_repeats_witness :
  let env := mkEnv ["the cat"] [] [] in
  flat_map tokenize (corpus_lines env) <> []
  /\ NoDup (flat_map tokenize (corpus_lines env))
  /\ exists top_before top_after avg rows,
      run_main (mkArgs (Some "mongodb://host") None) env (Db.mk [] [] [])
      = ((Db.mk [] [] [], [TopBefore top_before; TopAfter top_after;
                           WeightedAvg avg; Longest rows]),
         Raise TypeError).
Proof.
  intro env.
  assert (Hne : flat_map tokenize (corpus_lines env) <> [])
    by (vm_compute; discriminate).
  assert (Hnd : NoDup (flat_map tokenize (corpus_lines env))).
  { vm_compute. constructor; [intros [H|[]]; discriminate H|].
    constructor; [intros []|constructor]. }
  split; [exact Hne|]. split; [exact Hnd|].
  exact (main_without_repeats _ env _ Hne Hnd).
Defined.

Lemma bind_get_db {B : Type} (k : Db.t -> M B) (s : Db.t * list printed) :
  bind get_db k s = k (fst s) s.
Proof. reflexivity. Qed.

Lemma bind_put_db {B : Type} (db : Db.t) (k : unit -> M B)
      (s : Db.t * list printed) :
  bind (put_db db) k s = k tt (db, snd s).
Proof. reflexivity. Qed.

Lemma bind_ret {A B : Type} (a : A) (k : A -> M B)
      (s : Db.t * list printed) :
  bind (ret a) k s = k a s.
Proof. reflexivity. Qed.

(** The run of the model on a corpus in which some token occurs twice,
    rankings in the order of the model. *)
Lemma main_trace (args : Args) (env : Env) (db : Db.t) (w : string) :
  (2 <= count_occ string_dec (flat_map tokenize (corpus_lines env)) w)%nat ->
  let counts := rdd_word_counts (corpus_lines env) in
  let fan := per_file_and_global_counts (folder_files env) in
  let db1 :=
    if truthy (mongo_uri args)
    then Db.mk (mongo_store_counts counts []) (Db.global_wordcount db)
               (Db.per_file_wordcount db)
    else db in
  let db2 :=
    if truthy (folder args) && truthy (mongo_uri args)
    then fst (store_global_and_perfile_mongo (fst fan) (snd fan) db1)
    else db1 in
  exists top_before top_after avg rows share docs,
    run_main args env db
    = ((db2,
        ([TopBefore top_before; TopAfter top_after; WeightedAvg avg;
          Longest rows; Share share]
         ++ (if truthy (mongo_uri args)
             then [Inserted; MongoQuery docs] else [])
         ++ [TopBigrams (top_bigrams (corpus_lines env) 20); TfidfHeader]
         ++ map TfidfRow (firstn 5 (tfidf_rows env))
         ++ (if truthy (folder args) && truthy (mongo_uri args)
             then [Stored] else []))%list),
       Ok tt)
    /\ (0 < share)%Q /\ (share <= 1)%Q.
Proof.
  intros Htwice counts fan db1 db2.
  assert (Hne : flat_map tokenize (corpus_lines env) <> []).
  { intro E. rewrite E in Htwice. cbn in Htwice. lia. }
  pose proof (word_counts_nonempty _ Hne) as Hc. fold counts in Hc.
  set (total := RDD.sum (map snd counts)).
  assert (Hpos : Forall (fun x => 1 <= snd x) counts).
  { apply Forall_forall. intros [x c] Hin.
    now apply word_counts_count in Hin. }
  assert (Htot : 0 < total) by now apply counts_sum_positive.
  set (df := map (row_of total) counts).
  assert (Hdf : Forall (fun r => 1 <= Row.count r) df).
  { apply Forall_forall. intros r Hr. apply in_map_iff in Hr.
    destruct Hr as [x [<- Hx]]. rewrite Forall_forall in Hpos.
    exact (Hpos x Hx). }
  assert (Hrow : exists r, In r df /\ 2 <= Row.count r).
  { assert (Hk : In w (map fst counts)).
    { unfold counts. rewrite rdd_word_counts_eq, keys_reduceByKey, map_map.
      cbn [fst]. rewrite map_id. apply (count_occ_In string_dec). lia. }
    apply in_map_iff in Hk. destruct Hk as [[w' c] [Hw Hin]].
    cbn [fst] in Hw. subst w'.
    exists (row_of total (w, c)). split; [now apply in_map|].
    apply word_counts_count in Hin. destruct Hin as [-> _].
    cbn [row_of Row.count snd]. lia. }
  destruct (filter_count_ge_share df 2 Hdf Hrow)
    as [share [Ef [Eshare [_ [Hle1 _]]]]].
  assert (Hshare : (0 < share)%Q).
  { rewrite Eshare.
    assert (Hdfne : df <> []).
    { destruct Hrow as [r [Hr _]]. intro E. rewrite E in Hr. contradiction. }
    pose proof (sum_positive df Hdf Hdfne) as Hs.
    apply Qlt_shift_div_l.
    - change 0%Q with (inject_Z 0). now rewrite <- Zlt_Qlt.
    - rewrite Qmult_0_l. change 0%Q with (inject_Z 0). rewrite <- Zlt_Qlt.
      apply sum_positive; [now apply retained_positive|].
      destruct Hrow as [r [Hr Hr2]]. intro E.
      assert (Hin : In r (retained df 2)).
      { apply filter_In. split; [exact Hr | now apply Z.leb_le]. }
      rewrite E in Hin. contradiction. }
  exists (RDD.takeOrdered neg_count 10 counts),
         (RDD.takeOrdered neg_count 10 (stopword_filter counts)).
  eexists. exists (ten_longest df), share.
  exists (firstn 20 (query_mongo_by_length (mongo_store_counts counts []) 7)).
  split; [|split; [exact Hshare | exact Hle1]].
  unfold run_main, main. fold counts.
  cbn [compare_stopwords]. rewrite !bind_print.
  rewrite (df_from_counts_ok counts Hc). fold total. fold (row_of total).
  fold df. rewrite bind_lift_ok. rewrite weighted_avg_defined by lia.
  rewrite bind_lift_ok, !bind_print, Ef, bind_lift_ok, bind_print.
  subst db2 db1. cbn [fst snd app].
  rewrite (surjective_pairing
             (per_file_and_global_counts (folder_files env))).
  fold fan. cbn iota.
  rewrite (mongo_store_counts_docs counts []).
  destruct (truthy (mongo_uri args)), (truthy (folder args));
    unfold bind, get_db, put_db, print, ret; cbn [fst snd andb];
    rewrite print_rows_run; cbn [fst snd andb Db.words];
    rewrite ?mongo_store_counts_docs, <- ?app_assoc, ?app_nil_r;
    reflexivity.
Qed.

(** X19: on a corpus of at most [long_max] tokens in which some token
    occurs twice, [main] runs to its end.  It prints the statistics,
    with a share above 0 and at most 1; with a connection string it
    replaces the collection [words] by the word counts, in the order of
    the engine, and prints the query; it prints the twenty bigrams of
    largest count, by decreasing count, and at most five TF-IDF rows;
    and it stores the fan-out exactly when a folder and a connection
    string are both given. *)
Theorem main_completes (args : Args) (env : Env) (db : Db.t) (w : string) :
  (2 <= count_occ string_dec (flat_map tokenize (corpus_lines env)) w)%nat ->
  Z.of_nat (List.length (flat_map tokenize (corpus_lines env))) <= long_max ->
  let counts := rdd_word_counts (corpus_lines env) in
  let fan := per_file_and_global_counts (folder_files env) in
  let uri := truthy (mongo_uri args) in
  let both := truthy (folder args) && truthy (mongo_uri args) in
  exists top_before top_after avg rows share docs bigrams db',
    run_main args env db
    = ((db',
        ([TopBefore top_before; TopAfter top_after; WeightedAvg avg;
          Longest rows; Share share]
         ++ (if uri then [Inserted; MongoQuery docs] else [])
         ++ [TopBigrams bigrams; TfidfHeader]
         ++ map TfidfRow (firstn 5 (tfidf_rows env))
         ++ (if both then [Stored] else []))%list),
       Ok tt)
    /\ (0 < share)%Q /\ (share <= 1)%Q
    /\ is_top neg_count 20 (bigram_counts (corpus_lines env)) bigrams
    /\ (if uri
        then Permutation (Db.words db') (mongo_store_counts counts [])
        else Db.words db' = Db.words db)
    /\ (if both
        then Permutation
               (map (fun d => (GDoc.word d, GDoc.count d))
                    (Db.global_wordcount db'))
               (snd fan)
             /\ Db.per_file_wordcount db' = flat_map file_docs (fst fan)
        else Db.global_wordcount db' = Db.global_wordcount db
             /\ Db.per_file_wordcount db' = Db.per_file_wordcount db).
Proof.
  intros Htwice _ counts fan uri both.
  destruct (main_trace args env db w Htwice)
    as [tb [ta [avg [rows [share [docs [E [H0 H1]]]]]]]].
  fold counts fan in E.
  exists tb, ta, avg, rows, share, docs, (top_bigrams (corpus_lines env) 20).
  eexists. split; [exact E|]. split; [exact H0|]. split; [exact H1|].
  split; [apply takeOrdered_is_top|].
  subst uri both.
  destruct (truthy (mongo_uri args)), (truthy (folder args));
    cbn [andb store_global_and_perfile_mongo fst Db.words
         Db.global_wordcount Db.per_file_wordcount];
    repeat split; try reflexivity.
  rewrite map_map. cbn [GDoc.word GDoc.count].
  replace (map (fun x : string * Z => (fst x, snd x)) (snd fan))
    with (snd fan); [reflexivity|].
  rewrite <- (map_id (snd fan)) at 1. apply map_ext. now intros [k v].
Qed.

Lemma main_completes_witness :
  let env := mkEnv [corpus] [] [] in
  (2 <= count_occ string_dec (flat_map tokenize (corpus_lines env)) "sat")%nat
  /\ Z.of_nat (List.length (flat_map tokenize (corpus_lines env)))
     <= long_max
  /\ exists out share,
      run_main (mkArgs None None) env (Db.mk [] [] [])
      = ((Db.mk [] [] [], out), Ok tt)
      /\ In (Share share) out /\ (0 < share)%Q /\ (share <= 1)%Q.
Proof.
  intro env.
  assert (H : (2 <= count_occ string_dec
                      (flat_map tokenize (corpus_lines env)) "sat")%nat)
    by (vm_compute; lia).
  assert (Hfit : Z.of_nat (List.length
                             (flat_map tokenize (corpus_lines env)))
                 <= long_max)
    by (vm_compute; discriminate).
  split; [exact H|]. split; [exact Hfit|].
  destruct (main_completes (mkArgs None None) env (Db.mk [] [] []) "sat"
                           H Hfit)
    as [tb [ta [avg [rows [share [docs [bg [db' H']]]]]]]].
  destruct H' as [E [H0 [H1 [_ [Hw Hg]]]]].
  cbn [truthy mongo_uri folder andb] in E, Hw, Hg.
  destruct Hg as [Hg Hp]. destruct db' as [ws gs ps].
  cbn [Db.words Db.global_wordcount Db.per_file_wordcount] in Hw, Hg, Hp.
  subst ws gs ps.
  eexists. exists share. split; [exact E|]. split; [|now split].
  cbn [app In]. do 4 right. now left.
Defined.

(** X20: equal counts are not ordered by word: among the entries of one
    count, a ranking long enough to hold every entry lists them in the
    order the RDD has them. *)
Theorem ranking_keeps_ties_in_order
        (counts_rdd : list (string * Z)) (n : nat) (c : Z) :
  (List.length counts_rdd <= n)%nat ->
  filter (fun x => snd x =? c) (RDD.takeOrdered neg_count n counts_rdd)
  = filter (fun x => snd x =? c) counts_rdd.
Proof.
  intro Hlen. unfold RDD.takeOrdered. rewrite firstn_all2.
  - assert (Hext : forall l : list (string * Z),
               filter (fun x => snd x =? c) l
               = filter (fun y => neg_count y =? - c) l).
    { intro l. apply filter_ext. intro x. unfold neg_count.
      destruct (Z.eqb_spec (snd x) c), (Z.eqb_spec (- snd x) (- c));
        (reflexivity || lia). }
    rewrite !Hext. apply sorted_stable.
  - now rewrite (Permutation_length (sorted_perm neg_count counts_rdd)).
Qed.

Lemma ranking_keeps_ties_in_order_witness :
  let counts_rdd := [("dog", 1); ("sat", 2); ("cat", 1)] in
  (List.length counts_rdd <= 10)%nat
  /\ filter (fun x => snd x =? 1) (RDD.takeOrdered neg_count 10 counts_rdd)
     = [("dog", 1); ("cat", 1)].
Proof.
  intro counts_rdd.
  assert (H : (List.length counts_rdd <= 10)%nat) by (cbn; lia).
  split; [exact H|].
  exact (ranking_keeps_ties_in_order counts_rdd 10 1 H).
Defined.
